(** * Galaxy intrinsic-alignment simulator: the orientation model of [app.py]

    A shallow embedding of [src/app.py]: the module-level galaxy population
    ([x], [y], [theta_random]), the Dash callback [update_plot] and its helper
    [make_ellipses], followed by the properties of the orientation model, of
    the ellipse outlines and of the histogram angles.

    Numbers.  The program computes on NumPy [float64] values.  Three
    readings are used.  The main one takes them as real numbers ([R] of the
    Standard Library) and every operation as the exact one; it carries the
    algebraic properties, which rounding does not touch or touches in the
    last place only.  [B64] evaluates single lines on the processor's
    binary64 values, bit for bit, at concrete arguments.  [IEEE] keeps the
    special values (infinities, NaN) and the overflow rule and leaves the
    rounding function abstract, for statements about all finite arguments.

    Arrays.  A one-dimensional [ndarray] is a [list R].  Every NumPy
    expression of [update_plot] and [make_ellipses] builds a new array (the
    source has no in-place operator, no item assignment and no [out=]
    argument), so arrays are values and the only store is the set of module
    globals.  An operation on two arrays follows NumPy's broadcasting rule
    for one dimension and raises [ValueError] when the shapes do not agree. *)

From Stdlib Require Import Reals Lra Lia List String Bool Arith ZArith.
From Stdlib Require Import PrimFloat FloatOps SpecFloat Uint63.
Import ListNotations.

Open Scope R_scope.

(** ** Python outcomes *)

Inductive pyexn : Type :=
| ValueError (msg : string).

Inductive outcome (A : Type) : Type :=
| Returns (a : A)
| Raises (e : pyexn).

Arguments Returns {A} a.
Arguments Raises {A} e.

Class Monad (F : Type -> Type) : Type := {
  ret : forall {A}, A -> F A;
  bind : forall {A B}, F A -> (A -> F B) -> F B
}.

Notation "v <- m ;; k" := (bind m (fun v => k))
  (at level 61, m at next level, right associativity).
Notation "' pat <- m ;; k" := (bind m (fun v => let 'pat := v in k))
  (at level 61, pat pattern, m at next level, right associativity).

#[global] Instance outcome_Monad : Monad outcome := {|
  ret := fun A a => Returns a;
  bind := fun A B m k => match m with Returns a => k a | Raises e => Raises e end
|}.

(** ** NumPy primitives used by the program *)

Definition ndarray : Type := list R.

Definition np_deg2rad (d : R) : R := d * (PI / 180).
Definition np_degrees (r : R) : R := r * (180 / PI).

Definition np_sin (a : ndarray) : ndarray := map sin a.
Definition np_cos (a : ndarray) : ndarray := map cos a.

Definition np_full (n : nat) (v : R) : ndarray := repeat v n.
Definition np_zeros (n : nat) : ndarray := repeat 0 n.

(** [numpy.arctan2] on scalars: the angle of the point (x1, x2) read as
    (ordinate, abscissa), in (-pi, pi], and 0 at the origin. *)
Definition arctan2 (x1 x2 : R) : R :=
  if Rlt_dec 0 x2 then atan (x1 / x2)
  else if Rlt_dec x2 0 then
    (if Rle_dec 0 x1 then atan (x1 / x2) + PI else atan (x1 / x2) - PI)
  else if Rlt_dec 0 x1 then PI / 2
  else if Rlt_dec x1 0 then - (PI / 2)
  else 0.

(** [a % b] of NumPy ([numpy.remainder]): the remainder of the floor
    division, which has the sign of the divisor.  This is the exact
    remainder; the float64 operation ends with a rounded addition and is
    [B64.np_remainder]. *)
Definition np_remainder (a b : R) : R := a - b * IZR (Int_part (a / b)).

(** [numpy.linspace(start, stop, num)] with the default [endpoint=True]:
    [num] samples, step [(stop - start) / (num - 1)], the last sample set to
    [stop]. *)
Definition np_linspace (start stop : R) (num : nat) : ndarray :=
  match num with
  | O => []
  | S O => [start]
  | S div =>
      map (fun i => start + INR i * ((stop - start) / INR div)) (seq 0 div)
        ++ [stop]
  end.

(** An array combined with a Python scalar. *)
Definition arr_scalar (f : R -> R -> R) (a : ndarray) (s : R) : ndarray :=
  map (fun v => f v s) a.
Definition scalar_arr (f : R -> R -> R) (s : R) (a : ndarray) : ndarray :=
  map (fun v => f s v) a.

Fixpoint map2 (f : R -> R -> R) (a b : ndarray) : ndarray :=
  match a, b with
  | u :: a', v :: b' => f u v :: map2 f a' b'
  | _, _ => []
  end.

(** Two arrays: equal shapes combine elementwise, a one-element array is
    stretched, anything else is a shape mismatch. *)
Definition broadcast2 (f : R -> R -> R) (a b : ndarray) : outcome ndarray :=
  if Nat.eqb (List.length a) (List.length b) then Returns (map2 f a b)
  else match a, b with
       | [u], _ => Returns (scalar_arr f u b)
       | _, [v] => Returns (arr_scalar f a v)
       | _, _ => Raises (ValueError "operands could not be broadcast together")
       end.

Definition np_arctan2 (x1 x2 : ndarray) : outcome ndarray :=
  broadcast2 arctan2 x1 x2.

Declare Scope ndarray_scope.
Delimit Scope ndarray_scope with nd.
Notation "a .+ s" := (arr_scalar Rplus a s) (at level 50, left associativity) : ndarray_scope.
Notation "a .- s" := (arr_scalar Rminus a s) (at level 50, left associativity) : ndarray_scope.
Notation "s *: a" := (scalar_arr Rmult s a) (at level 40, left associativity) : ndarray_scope.
Notation "s -: a" := (scalar_arr Rminus s a) (at level 50, left associativity) : ndarray_scope.
Notation "a [+] b" := (broadcast2 Rplus a b) (at level 50, left associativity) : ndarray_scope.
Notation "a [-] b" := (broadcast2 Rminus a b) (at level 50, left associativity) : ndarray_scope.
Notation "a .% s" := (arr_scalar np_remainder a s) (at level 40, left associativity) : ndarray_scope.
Open Scope ndarray_scope.

(** ** Module globals *)

Definition N_galaxies : nat := 200.
Definition field_size : R := 100.
Definition ellipticity : R := 0.6.

Record Globals : Type := {
  x : ndarray;
  y : ndarray;
  theta_random : ndarray
}.

(** [np.random.uniform(low, high, size)] over a stream of unit samples: the
    array of [size] values [low + (high - low) * u], and the stream after
    them.  The seeded generator itself is not modelled: [u] stands for the
    sequence of samples in [0, 1) that [np.random.seed(42)] fixes. *)
Definition np_random_uniform (low high : R) (size : nat) (u : nat -> R)
  : ndarray * (nat -> R) :=
  (map (fun i => low + (high - low) * u i) (seq 0 size),
   fun i => u (size + i)%nat).

(** The module body, lines 11 to 18. *)
Definition module_init (u : nat -> R) : Globals :=
  let '(x, u1) := np_random_uniform 0 field_size N_galaxies u in
  let '(y, u2) := np_random_uniform 0 field_size N_galaxies u1 in
  let '(theta_random, _) := np_random_uniform 0 PI N_galaxies u2 in
  {| x := x; y := y; theta_random := theta_random |}.

(** A callback runs against the module globals; an exception leaves them as
    they are at the point of the raise. *)
Definition M (A : Type) : Type := Globals -> outcome A * Globals.

#[global] Instance M_Monad : Monad M := {|
  ret := fun A a g => (Returns a, g);
  bind := fun A B m k g =>
    match m g with
    | (Returns a, g') => k a g'
    | (Raises e, g') => (Raises e, g')
    end
|}.

Definition read_global {A : Type} (field : Globals -> A) : M A :=
  fun g => (Returns (field g), g).

Definition lift {A : Type} (o : outcome A) : M A :=
  fun g => (o, g).

(** ** Plotly traces *)

(** The [x] and [y] data of a scatter trace may hold [None], which breaks the
    line.  A figure is the list of its traces; its layout (title, size, axes,
    margins) is presentation only and is left out. *)
Inductive trace : Type :=
| Scatter (xs ys : list (option R)) (color : string)
| Histogram (xs : ndarray) (nbinsx : nat).

Definition Figure : Type := list trace.

(** Python's [zip] stops at the shortest argument. *)
Fixpoint zip3 {A B C : Type} (a : list A) (b : list B) (c : list C)
  : list (A * B * C) :=
  match a, b, c with
  | u :: a', v :: b', w :: c' => (u, v, w) :: zip3 a' b' c'
  | _, _, _ => []
  end.

Fixpoint zip4 {A B C D : Type} (a : list A) (b : list B) (c : list C)
  (d : list D) : list (A * B * C * D) :=
  match a, b, c, d with
  | u :: a', v :: b', w :: c', z :: d' => (u, v, w, z) :: zip4 a' b' c' d'
  | _, _, _, _ => []
  end.

(** ** [make_ellipses] *)

(** The body of the loop of [make_ellipses], lines 31 to 42: the outline of
    one galaxy at [(xi, yi)] turned by [t].  The source samples the perimeter
    at 30 points; the number of samples is the argument [n_points] here, and
    [make_ellipses] passes 30.  The float64 reading of the same lines is
    [B64.ellipse_outline]. *)
Definition ellipse_outline (n_points : nat) (xi yi t e : R)
  : outcome (ndarray * ndarray) :=
  let w := 1 in
  let h := w * e in
  let t_vals := np_linspace 0 (2 * PI) n_points in
  let ex := (w / 2) *: np_cos t_vals in
  let ey := (h / 2) *: np_sin t_vals in
  ex_rot <- (cos t *: ex) [-] (sin t *: ey) ;;
  ey_rot <- (sin t *: ex) [+] (cos t *: ey) ;;
  let ex_final := ex_rot .+ xi in
  let ey_final := ey_rot .+ yi in
  ret (ex_final, ey_final).

Fixpoint ellipse_traces (n_points : nat) (gal : list (R * R * R)) (e : R)
  : outcome (list trace) :=
  match gal with
  | [] => ret []
  | (xi, yi, t) :: rest =>
      '(ex_final, ey_final) <- ellipse_outline n_points xi yi t e ;;
      traces <- ellipse_traces n_points rest e ;;
      ret (Scatter (map Some ex_final) (map Some ey_final) "blue" :: traces)
  end.

Definition make_ellipses (x y theta : ndarray) (e : R) : outcome (list trace) :=
  ellipse_traces 30 (zip3 x y theta) e.

(** ** The orientation model inside [update_plot] *)

(** Lines 203 to 213. *)
Definition shear_angles (shear_pattern : string) (shear_angle_uniform : R)
  (x y : ndarray) : outcome ndarray :=
  let x_centered := x .- 0.5 in
  let y_centered := y .- 0.5 in
  if (shear_pattern =? "uniform")%string then
    ret (np_full (List.length x) shear_angle_uniform)
  else if (shear_pattern =? "radial")%string then
    a <- np_arctan2 y_centered x_centered ;;
    ret (a .+ (PI / 2))
  else if (shear_pattern =? "tangential")%string then
    np_arctan2 y_centered x_centered
  else
    ret (np_zeros (List.length x)).

(** Line 216. *)
Definition intrinsic_offset (ia_strength preferred_angle : R)
  (theta_random : ndarray) : ndarray :=
  ia_strength *: np_sin (2 *: (preferred_angle -: theta_random)).

(** Line 219. *)
Definition shear_offset (shear_strength : R) (shear_angles theta_random : ndarray)
  : outcome ndarray :=
  d <- shear_angles [-] theta_random ;;
  ret (shear_strength *: np_sin (2 *: d)).

(** Lines 199 to 222: from the callback's arguments and the population to
    the final angles. *)
Definition theta_all (ia_strength shear_strength preferred_angle_deg
  shear_angle_deg : R) (shear_pattern : string) (x y theta_random : ndarray)
  : outcome ndarray :=
  let preferred_angle := np_deg2rad preferred_angle_deg in
  let shear_angle_uniform := np_deg2rad shear_angle_deg in
  shear_angles <- shear_angles shear_pattern shear_angle_uniform x y ;;
  let intrinsic_offset := intrinsic_offset ia_strength preferred_angle theta_random in
  shear_offset <- shear_offset shear_strength shear_angles theta_random ;;
  s <- theta_random [+] intrinsic_offset ;;
  s [+] shear_offset.

(** Lines 243 to 257: the overlay of orientation vectors. *)
Fixpoint line_segments (ends : list (R * R * R * R))
  : list (option R) * list (option R) :=
  match ends with
  | [] => ([], [])
  | (xs, ys, xe, ye) :: rest =>
      let '(x_lines, y_lines) := line_segments rest in
      ([Some xs; Some xe; None] ++ x_lines, [Some ys; Some ye; None] ++ y_lines)
  end.

Definition vector_trace (x y theta_all : ndarray) : outcome trace :=
  let axis_length := 2.5 in
  x_start <- x [-] (0.5 * axis_length *: np_cos theta_all) ;;
  y_start <- y [-] (0.5 * axis_length *: np_sin theta_all) ;;
  x_end <- x [+] (0.5 * axis_length *: np_cos theta_all) ;;
  y_end <- y [+] (0.5 * axis_length *: np_sin theta_all) ;;
  let '(x_lines, y_lines) := line_segments (zip4 x_start y_start x_end y_end) in
  ret (Scatter x_lines y_lines "red").

(** Line 271. *)
Definition angles_deg (theta_all : ndarray) : ndarray :=
  map np_degrees theta_all .% 180.

(** ** The callback *)

Definition update_plot (ia_strength shear_strength preferred_angle_deg
  shear_angle_deg : R) (toggle_value : list string) (shear_pattern : string)
  : M (Figure * Figure) :=
  x_ <- read_global x ;;
  y_ <- read_global y ;;
  theta_random_ <- read_global theta_random ;;
  theta_all <- lift (theta_all ia_strength shear_strength preferred_angle_deg
                       shear_angle_deg shear_pattern x_ y_ theta_random_) ;;
  ellipses <- lift (make_ellipses x_ y_ theta_all ellipticity) ;;
  let fig : Figure := ellipses in
  let show_vectors := existsb (String.eqb "show_vectors") toggle_value in
  fig <- (if show_vectors
          then v <- lift (vector_trace x_ y_ theta_all) ;; ret (fig ++ [v])
          else ret fig) ;;
  let hist_fig : Figure := [Histogram (angles_deg theta_all) 30] in
  ret (fig, hist_fig).

(** One request of the dashboard: the arguments of one call of the
    callback. *)
Record request : Type := {
  ia_strength : R;
  shear_strength : R;
  preferred_angle_deg : R;
  shear_angle_deg : R;
  toggle_value : list string;
  shear_pattern : string
}.

Definition serve (r : request) : M (Figure * Figure) :=
  update_plot (ia_strength r) (shear_strength r) (preferred_angle_deg r)
    (shear_angle_deg r) (toggle_value r) (shear_pattern r).

(** The globals after a sequence of requests, whatever each one returned or
    raised. *)
Fixpoint session (rs : list request) (g : Globals) : Globals :=
  match rs with
  | [] => g
  | r :: rest => session rest (snd (serve r g))
  end.

(** ** The alignment functions, [app.py] lines 21 to 25 *)

(** The callback of [app.py] no longer calls these two; the earlier
    dashboard [app/app.py] and the script
    [scripts/basic_galaxy_simulations.py] define the same two functions and
    build their angles with them. *)
Definition apply_intrinsic_alignment (theta : ndarray)
  (strength preferred_angle : R) : ndarray :=
  ((1 - strength) *: theta) .+ (strength * preferred_angle).

Definition apply_lensing_shear (theta : ndarray) (shear_angle shear_strength : R)
  : outcome ndarray :=
  theta [+] (shear_strength *: np_cos (theta .- shear_angle)).

(** ** The earlier dashboard, [app/app.py] *)

Module Legacy.

(** Lines 112 to 116 of [app/app.py]. *)
Definition theta_all (ia_strength shear_strength preferred_angle_deg
  shear_angle_deg : R) (theta_random : ndarray) : outcome ndarray :=
  let preferred_angle := np_deg2rad preferred_angle_deg in
  let shear_angle := np_deg2rad shear_angle_deg in
  let theta_ia :=
    apply_intrinsic_alignment theta_random ia_strength preferred_angle in
  apply_lensing_shear theta_ia shear_angle shear_strength.

(** The callback, lines 111 to 145; [make_ellipses] is the same function
    in both dashboards. *)
Definition update_plot (ia_strength shear_strength preferred_angle_deg
  shear_angle_deg : R) : M (Figure * Figure) :=
  x_ <- read_global x ;;
  y_ <- read_global y ;;
  theta_random_ <- read_global theta_random ;;
  theta_all <- lift (theta_all ia_strength shear_strength preferred_angle_deg
                       shear_angle_deg theta_random_) ;;
  ellipses <- lift (make_ellipses x_ y_ theta_all ellipticity) ;;
  let fig : Figure := ellipses in
  let hist_fig : Figure := [Histogram (angles_deg theta_all) 30] in
  ret (fig, hist_fig).

End Legacy.

(** ** The script, [scripts/basic_galaxy_simulations.py] *)

Module Script.

Definition IA_strength : R := 0.6.
Definition preferred_angle : R := PI / 4.
Definition shear_strength : R := 0.3.
Definition shear_angle : R := PI / 2.

(** Line 38. *)
Definition theta_IA (theta_random : ndarray) : ndarray :=
  apply_intrinsic_alignment theta_random IA_strength preferred_angle.

(** Line 44. *)
Definition theta_IA_shear (theta_random : ndarray) : outcome ndarray :=
  apply_lensing_shear (theta_IA theta_random) shear_angle shear_strength.

End Script.

(** ** The same lines on binary64 values *)

(** The definitions above read float64 as exact reals.  Where a property
    turns on rounding, the lines concerned are evaluated here on the
    processor's binary64 values ([PrimFloat]), operation by operation as
    NumPy applies them to each entry of an array. *)
Module B64.

(** [np.pi], the double nearest to pi. *)
Definition pi : float := 0x1.921fb54442d18p+1%float.

(** The C library's [sin] and [cos], which [np.sin] and [np.cos] apply to
    each entry.  They are not part of the repository and are taken as a
    parameter. *)
Record libm : Type := {
  c_sin : float -> float;
  c_cos : float -> float
}.

(** [np.deg2rad] and [np.degrees] multiply by the rounded constants
    [np.pi / 180] and [180 / np.pi]. *)
Definition np_deg2rad (d : float) : float := (d * (pi / 180))%float.
Definition np_degrees (r : float) : float := (r * (180 / pi))%float.

(** C's [fmod]: the exact remainder of the truncated division, with the
    sign of the dividend; no rounding takes place. *)
Definition fmod (a b : float) : float :=
  match Prim2SF a, Prim2SF b with
  | S754_nan, _ | _, S754_nan => nan
  | S754_infinity _, _ => nan
  | _, S754_zero _ => nan
  | S754_zero _, _ => a
  | S754_finite _ _ _, S754_infinity _ => a
  | S754_finite sa ma ea, S754_finite _ mb eb =>
      let e := Z.min ea eb in
      let r := Z.modulo (Z.pos ma * 2 ^ (ea - e)) (Z.pos mb * 2 ^ (eb - e)) in
      match r with
      | Z.pos m => SF2Prim (S754_finite sa m e)
      | _ => if sa then neg_zero else zero
      end
  end.

(** [a % b] on float64, as NumPy computes it: [fmod], then the divisor is
    added when the signs differ, and that addition rounds. *)
Definition np_remainder (a b : float) : float :=
  let m := fmod a b in
  if (b =? 0)%float then m
  else if (m =? 0)%float then (if get_sign b then neg_zero else zero)
  else if xorb (b <? 0)%float (m <? 0)%float then (m + b)%float
  else m.

(** Line 271, for one final angle. *)
Definition angles_deg (theta : float) : float :=
  np_remainder (np_degrees theta) 180%float.

(** Lines 216 to 222, for one galaxy of base angle [theta0] and shear
    direction [d]. *)
Definition final_angle (lm : libm) (ia_strength shear_strength
  preferred_angle d theta0 : float) : float :=
  let intrinsic_offset :=
    (ia_strength * c_sin lm (2 * (preferred_angle - theta0)))%float in
  let shear_offset := (shear_strength * c_sin lm (2 * (d - theta0)))%float in
  (theta0 + intrinsic_offset + shear_offset)%float.

Definition of_nat (n : nat) : float := of_uint63 (Uint63.of_Z (Z.of_nat n)).

(** [np.linspace]: the samples [i * step + start], the last one replaced by
    [stop] itself. *)
Definition np_linspace (start stop : float) (num : nat) : list float :=
  match num with
  | O => []
  | S O => [start]
  | S div =>
      let step := ((stop - start) / of_nat div)%float in
      map (fun i => (of_nat i * step + start)%float) (seq 0 div) ++ [stop]
  end.

(** Lines 31 to 42 of [make_ellipses], for the perimeter sample [tau]. *)
Definition outline_point (lm : libm) (xi yi t e tau : float) : float * float :=
  let w := 1%float in
  let h := (w * e)%float in
  let ex := (w / 2 * c_cos lm tau)%float in
  let ey := (h / 2 * c_sin lm tau)%float in
  let ex_rot := (c_cos lm t * ex - c_sin lm t * ey)%float in
  let ey_rot := (c_sin lm t * ex + c_cos lm t * ey)%float in
  ((ex_rot + xi)%float, (ey_rot + yi)%float).

Definition ellipse_outline (lm : libm) (n_points : nat) (xi yi t e : float)
  : list (float * float) :=
  map (outline_point lm xi yi t e) (np_linspace 0 (2 * pi) n_points).

Definition ellipticity : float := 0x1.3333333333333p-1%float.

(** Samples of a correctly rounded C library, at the arguments the
    evaluations below reach: 0, [np.pi / 2], [2 * np.pi] and the base angle
    of the ninth galaxy of the seeded population.  Any other argument is
    outside the table and answers [nan]; no statement reads such an
    entry. *)
Definition libm_samples : libm := {|
  c_sin := fun a =>
    if (a =? 0)%float then 0%float
    else if (a =? 0x1.921fb54442d18p+0)%float then 1%float
    else if (a =? 0x1.921fb54442d18p+2)%float then (-0x1.1a62633145c07p-52)%float
    else if (a =? 0x1.6c1360bc68eeep+1)%float then 0x1.2bec2e780c911p-2%float
    else nan;
  c_cos := fun a =>
    if (a =? 0)%float then 1%float
    else if (a =? 0x1.921fb54442d18p+2)%float then 1%float
    else if (a =? 0x1.6c1360bc68eeep+1)%float then (-0x1.e98bdc6524078p-1)%float
    else nan
|}.

(** Two galaxies of the population that [np.random.seed(42)] draws: the
    fifth by its base angle, the ninth by position and base angle. *)
Definition theta_4 : float := 0x1.01662f7605f54p+0%float.
Definition x_8 : float := 0x1.e0e45aba4963ep+5%float.
Definition y_8 : float := 0x1.03273119181f8p-1%float.
Definition theta_8 : float := 0x1.6c1360bc68eeep+1%float.

End B64.

(** ** Binary64 with its special values, rounding left abstract *)

(** For statements about every float64 argument the operations are read as
    IEEE 754 defines them: the exact result, rounded, with overflow to an
    infinity and NaN for the invalid cases.  The rounding function [rnd]
    (to nearest, as if the exponent had no upper bound) and the C
    library's [sin] and [atan2] are parameters, constrained by
    [rounding] and [libm_contract].  Signed zeros and the underflow flag
    are left out. *)
Module IEEE.

Inductive f64 : Type :=
| Fin (r : R)
| Inf (negative : bool)
| NaN.

(** The largest finite double, (2^53 - 1) * 2^971, and half the gap above it:
    an exact result of magnitude below their sum still rounds to a finite
    double. *)
Definition f64_max : R := IZR (2 ^ 53 - 1) * 2 ^ 971.
Definition overflow_margin : R := 2 ^ 970.

(** The finite doubles: an integer below 2^53 in magnitude, scaled by a
    power of two between 2^-1074 and 2^971. *)
Definition representable (r : R) : Prop :=
  exists (m : Z) (e : nat),
    (Z.abs m < 2 ^ 53)%Z /\
    ((e <= 971)%nat /\ r = IZR m * 2 ^ e \/ (e <= 1074)%nat /\ r = IZR m / 2 ^ e).

Record rounding (rnd : R -> R) : Prop := {
  rnd_monotone : forall a b, a <= b -> rnd a <= rnd b;
  rnd_representable : forall a, representable a -> rnd a = a;
  rnd_below_overflow :
    forall a, Rabs a < f64_max + overflow_margin -> Rabs (rnd a) <= f64_max;
  rnd_overflow :
    forall a, f64_max + overflow_margin <= Rabs a -> f64_max < Rabs (rnd a)
}.

(** What is used of the C library: a sine lies in [-1, 1] and an angle
    returned by [atan2] in [-pi, pi], here within [-4, 4]. *)
Record libm_contract (m_sin : R -> R) (m_atan2 : R -> R -> R) : Prop := {
  m_sin_bound : forall a, Rabs (m_sin a) <= 1;
  m_atan2_bound : forall a b, Rabs (m_atan2 a b) <= 4
}.

Section Operations.

Variable rnd : R -> R.
Variable m_sin : R -> R.
Variable m_atan2 : R -> R -> R.

Definition round_result (r : R) : f64 :=
  let v := rnd r in
  if Rle_dec (Rabs v) f64_max then Fin v
  else Inf (if Rlt_dec v 0 then true else false).

Definition opp (a : f64) : f64 :=
  match a with
  | Fin r => Fin (- r)
  | Inf s => Inf (negb s)
  | NaN => NaN
  end.

Definition add (a b : f64) : f64 :=
  match a, b with
  | NaN, _ | _, NaN => NaN
  | Inf s, Inf s' => if Bool.eqb s s' then Inf s else NaN
  | Inf s, Fin _ | Fin _, Inf s => Inf s
  | Fin u, Fin v => round_result (u + v)
  end.

Definition sub (a b : f64) : f64 := add a (opp b).

Definition negative (r : R) : bool := if Rlt_dec r 0 then true else false.

Definition mul (a b : f64) : f64 :=
  match a, b with
  | NaN, _ | _, NaN => NaN
  | Inf s, Inf s' => Inf (xorb s s')
  | Inf s, Fin v | Fin v, Inf s =>
      if Rlt_dec v 0 then Inf (negb s)
      else if Rlt_dec 0 v then Inf s
      else NaN
  | Fin u, Fin v => round_result (u * v)
  end.

(** [np.sin]: the sine of an infinity is NaN. *)
Definition sin (a : f64) : f64 :=
  match a with
  | Fin r => Fin (m_sin r)
  | _ => NaN
  end.

(** [np.pi] and the constants NumPy derives from it. *)
Definition pi : R := rnd PI.
Definition deg2rad_factor : R := rnd (pi / 180).
Definition half_pi : R := rnd (pi / 2).

Definition signed (s : bool) (r : R) : R := if s then - r else r.

(** [np.arctan2]: the library's value on finite arguments, the limits of
    the C standard on infinite ones. *)
Definition arctan2 (x1 x2 : f64) : f64 :=
  match x1, x2 with
  | NaN, _ | _, NaN => NaN
  | Fin a, Fin b => Fin (m_atan2 a b)
  | Fin a, Inf false => Fin 0
  | Fin a, Inf true => Fin (signed (negative a) pi)
  | Inf s, Fin _ => Fin (signed s half_pi)
  | Inf s, Inf false => Fin (signed s (rnd (pi / 4)))
  | Inf s, Inf true => Fin (signed s (rnd (3 * PI / 4)))
  end.

Definition np_deg2rad (d : f64) : f64 := mul d (Fin deg2rad_factor).

(** Lines 203 to 213, for one galaxy. *)
Definition shear_direction (shear_pattern : string) (shear_angle_uniform : f64)
  (xi yi : f64) : f64 :=
  let x_centered := sub xi (Fin 0.5) in
  let y_centered := sub yi (Fin 0.5) in
  if (shear_pattern =? "uniform")%string then shear_angle_uniform
  else if (shear_pattern =? "radial")%string then
    add (arctan2 y_centered x_centered) (Fin half_pi)
  else if (shear_pattern =? "tangential")%string then
    arctan2 y_centered x_centered
  else Fin 0.

(** Lines 216 to 222, for one galaxy. *)
Definition final_angle (ia_strength shear_strength preferred_angle d theta0 : f64)
  : f64 :=
  let intrinsic_offset :=
    mul ia_strength (sin (mul (Fin 2) (sub preferred_angle theta0))) in
  let shear_offset := mul shear_strength (sin (mul (Fin 2) (sub d theta0))) in
  add (add theta0 intrinsic_offset) shear_offset.

(** Lines 199 to 222: one entry of [theta_all]. *)
Definition theta_entry (ia_strength shear_strength preferred_angle_deg
  shear_angle_deg : f64) (shear_pattern : string) (xi yi theta0 : f64) : f64 :=
  let preferred_angle := np_deg2rad preferred_angle_deg in
  let shear_angle_uniform := np_deg2rad shear_angle_deg in
  final_angle ia_strength shear_strength preferred_angle
    (shear_direction shear_pattern shear_angle_uniform xi yi) theta0.

End Operations.

(** Exact arithmetic with the overflow rule: a rounding function that meets
    [rounding]. *)
Definition rnd_exact (r : R) : R :=
  if Rlt_dec f64_max r then
    (if Rlt_dec r (f64_max + overflow_margin) then f64_max else r)
  else if Rlt_dec r (- f64_max) then
    (if Rlt_dec (- (f64_max + overflow_margin)) r then - f64_max else r)
  else r.

End IEEE.

(** ** Elementwise readings and predicates used in the statements *)

(** A population as the module builds it: three arrays of one length. *)
Definition population_wf (g : Globals) : Prop :=
  List.length (x g) = List.length (theta_random g) /\
  List.length (y g) = List.length (theta_random g).

(** The entry of [shear_angles] for a galaxy at [(xi, yi)]. *)
Definition shear_direction (shear_pattern : string) (shear_angle_uniform : R)
  (xi yi : R) : R :=
  if (shear_pattern =? "uniform")%string then shear_angle_uniform
  else if (shear_pattern =? "radial")%string then
    arctan2 (yi - 0.5) (xi - 0.5) + PI / 2
  else if (shear_pattern =? "tangential")%string then
    arctan2 (yi - 0.5) (xi - 0.5)
  else 0.

(** The entry of [theta_all] for a galaxy of base angle [theta0] and shear
    direction [d]. *)
Definition final_angle (ia_strength shear_strength preferred_angle : R)
  (theta0 d : R) : R :=
  theta0 + ia_strength * sin (2 * (preferred_angle - theta0))
         + shear_strength * sin (2 * (d - theta0)).

(** The point of the outline at parameter [tau]. *)
Definition outline_x (xi t e tau : R) : R :=
  cos t * (1 / 2 * cos tau) - sin t * (1 * e / 2 * sin tau) + xi.
Definition outline_y (yi t e tau : R) : R :=
  sin t * (1 / 2 * cos tau) + cos t * (1 * e / 2 * sin tau) + yi.

(** The trace [make_ellipses] appends for one galaxy. *)
Definition ellipse_trace (n : nat) (e : R) (gal : R * R * R) : trace :=
  let '(xi, yi, t) := gal in
  Scatter (map Some (map (outline_x xi t e) (np_linspace 0 (2 * PI) n)))
          (map Some (map (outline_y yi t e) (np_linspace 0 (2 * PI) n)))
          "blue".

(** Base angles, some of them turned by half a turn. *)
Definition half_turned (th th' : ndarray) : Prop :=
  Forall2 (fun t t' => t' = t \/ t' = t + PI) th th'.

(** A population of one galaxy in the middle of the field, base angle 0. *)
Definition one_galaxy : Globals :=
  {| x := [50]; y := [50]; theta_random := [0] |}.

(** * Properties *)

(** ** Arrays *)

Lemma map2_length (f : R -> R -> R) (a b : ndarray) :
  List.length a = List.length b -> List.length (map2 f a b) = List.length a.
Proof.
  revert b; induction a as [|u a IH]; intros [|v b] H; simpl in *;
    try discriminate; auto.
Qed.

Lemma map2_map (f : R -> R -> R) (p q : R -> R) (l : ndarray) :
  map2 f (map p l) (map q l) = map (fun v => f (p v) (q v)) l.
Proof.
  induction l as [|v l IH]; simpl; [reflexivity | now rewrite IH].
Qed.

Lemma map2_nth_error (f : R -> R -> R) (a b : ndarray) (i : nat) (u v : R) :
  nth_error a i = Some u -> nth_error b i = Some v ->
  nth_error (map2 f a b) i = Some (f u v).
Proof.
  revert b i; induction a as [|u' a IH]; intros [|v' b] [|i] Ha Hb;
    simpl in *; try discriminate.
  - now inversion Ha; inversion Hb.
  - now apply IH.
Qed.

Lemma broadcast2_same (f : R -> R -> R) (a b : ndarray) :
  List.length a = List.length b -> broadcast2 f a b = Returns (map2 f a b).
Proof.
  intros H; unfold broadcast2.
  now rewrite H, Nat.eqb_refl.
Qed.

Lemma arr_scalar_length (f : R -> R -> R) (a : ndarray) (s : R) :
  List.length (arr_scalar f a s) = List.length a.
Proof. apply length_map. Qed.

Lemma scalar_arr_length (f : R -> R -> R) (s : R) (a : ndarray) :
  List.length (scalar_arr f s a) = List.length a.
Proof. apply length_map. Qed.

Lemma np_sin_length (a : ndarray) : List.length (np_sin a) = List.length a.
Proof. apply length_map. Qed.

Lemma np_cos_length (a : ndarray) : List.length (np_cos a) = List.length a.
Proof. apply length_map. Qed.

Lemma np_full_nth_error (n i : nat) (v : R) :
  (i < n)%nat -> nth_error (np_full n v) i = Some v.
Proof.
  unfold np_full; intros H.
  now apply nth_error_repeat.
Qed.

Create Rewrite HintDb shapes.
#[global] Hint Rewrite map2_length arr_scalar_length scalar_arr_length
  np_sin_length np_cos_length length_map repeat_length : shapes.

Ltac shape :=
  first [ congruence
        | progress (unfold np_full, np_zeros); shape
        | progress (autorewrite with shapes); shape
        | idtac ].

Lemma module_init_wf (u : nat -> R) : population_wf (module_init u).
Proof.
  unfold population_wf, module_init, np_random_uniform; cbn [x y theta_random].
  now rewrite !length_map, !length_seq.
Qed.

Lemma module_init_size (u : nat -> R) :
  List.length (theta_random (module_init u)) = N_galaxies.
Proof.
  unfold module_init, np_random_uniform; cbn [theta_random].
  now rewrite length_map, length_seq.
Qed.

(** ** The orientation model, galaxy by galaxy *)

Lemma map2_const (c : R) (a b : ndarray) :
  List.length a = List.length b -> map2 (fun _ _ => c) a b = repeat c (List.length a).
Proof.
  revert b; induction a as [|u a IH]; intros [|v b] H; simpl in *;
    try discriminate; auto.
  now rewrite IH by congruence.
Qed.

Lemma map2_map_both (f : R -> R -> R) (p q : R -> R) (a b : ndarray) :
  map2 f (map p a) (map q b) = map2 (fun u v => f (p u) (q v)) a b.
Proof.
  revert b; induction a as [|u a IH]; intros [|v b]; simpl; auto.
  now rewrite IH.
Qed.

Lemma map_map2 (p : R -> R) (f : R -> R -> R) (a b : ndarray) :
  map p (map2 f a b) = map2 (fun u v => p (f u v)) a b.
Proof.
  revert b; induction a as [|u a IH]; intros [|v b]; simpl; auto.
  now rewrite IH.
Qed.

Lemma map2_swap (f : R -> R -> R) (a b : ndarray) :
  map2 f a b = map2 (fun v u => f u v) b a.
Proof.
  revert b; induction a as [|u a IH]; intros [|v b]; simpl; auto.
  now rewrite IH.
Qed.

Lemma np_arctan2_centered (xs ys : ndarray) :
  List.length xs = List.length ys ->
  np_arctan2 (ys .- 0.5) (xs .- 0.5)
  = Returns (map2 (fun xi yi => arctan2 (yi - 0.5) (xi - 0.5)) xs ys).
Proof.
  intros H. unfold np_arctan2.
  rewrite broadcast2_same by shape.
  unfold arr_scalar. rewrite map2_map_both, (map2_swap _ xs ys).
  reflexivity.
Qed.

Lemma shear_angles_returns (p : string) (sau : R) (xs ys : ndarray) :
  List.length xs = List.length ys ->
  shear_angles p sau xs ys = Returns (map2 (shear_direction p sau) xs ys).
Proof.
  intros H.
  unfold shear_angles, shear_direction.
  rewrite (np_arctan2_centered xs ys H).
  cbn [ret bind outcome_Monad].
  destruct (p =? "uniform")%string;
    [|destruct (p =? "radial")%string; [|destruct (p =? "tangential")%string]].
  - now rewrite map2_const.
  - unfold arr_scalar. now rewrite map_map2.
  - reflexivity.
  - unfold np_zeros. now rewrite map2_const.
Qed.

Lemma orientation_sum (ia sh pa : R) (th sa : ndarray) :
  List.length sa = List.length th ->
  (shear_offset <- shear_offset sh sa th ;;
   s <- th [+] intrinsic_offset ia pa th ;;
   s [+] shear_offset)
  = Returns (map2 (final_angle ia sh pa) th sa).
Proof.
  intros H. unfold shear_offset, intrinsic_offset.
  rewrite (broadcast2_same _ sa th H).
  cbn [ret bind outcome_Monad].
  rewrite broadcast2_same by shape.
  rewrite broadcast2_same by shape.
  f_equal. unfold scalar_arr, np_sin.
  revert sa H; induction th as [|t th IH]; intros [|d sa] H; simpl in *;
    try discriminate; auto.
  now rewrite IH by congruence.
Qed.

Lemma theta_all_returns (ia sh pdeg sdeg : R) (p : string) (xs ys th : ndarray) :
  List.length xs = List.length th -> List.length ys = List.length th ->
  theta_all ia sh pdeg sdeg p xs ys th
  = Returns (map2 (final_angle ia sh (np_deg2rad pdeg)) th
               (map2 (shear_direction p (np_deg2rad sdeg)) xs ys)).
Proof.
  intros Hx Hy. unfold theta_all.
  rewrite shear_angles_returns by congruence.
  cbn [bind outcome_Monad].
  apply orientation_sum.
  rewrite map2_length; congruence.
Qed.

(** ** Outlines, overlay and the whole callback *)

Lemma ellipse_outline_returns (n : nat) (xi yi t e : R) :
  ellipse_outline n xi yi t e
  = Returns (map (outline_x xi t e) (np_linspace 0 (2 * PI) n),
             map (outline_y yi t e) (np_linspace 0 (2 * PI) n)).
Proof.
  unfold ellipse_outline.
  rewrite !broadcast2_same by shape.
  cbn [ret bind outcome_Monad].
  unfold scalar_arr, arr_scalar, np_cos, np_sin.
  rewrite !map_map, !map2_map, !map_map.
  reflexivity.
Qed.

Lemma ellipse_traces_returns (n : nat) (gal : list (R * R * R)) (e : R) :
  ellipse_traces n gal e = Returns (map (ellipse_trace n e) gal).
Proof.
  induction gal as [|[[xi yi] t] gal IH]; [reflexivity|].
  cbn [ellipse_traces]. rewrite ellipse_outline_returns, IH.
  reflexivity.
Qed.

Lemma make_ellipses_returns (xs ys th : ndarray) (e : R) :
  make_ellipses xs ys th e = Returns (map (ellipse_trace 30 e) (zip3 xs ys th)).
Proof. apply ellipse_traces_returns. Qed.

Lemma vector_trace_returns (xs ys th : ndarray) :
  List.length xs = List.length th -> List.length ys = List.length th ->
  exists v, vector_trace xs ys th = Returns v.
Proof.
  intros Hx Hy. unfold vector_trace.
  rewrite !broadcast2_same by shape.
  cbn [ret bind outcome_Monad].
  destruct (line_segments _) as [x_lines y_lines].
  now eexists.
Qed.

Lemma final_angles_length (ia sh pa sau : R) (p : string) (xs ys th : ndarray) :
  List.length xs = List.length th -> List.length ys = List.length th ->
  List.length (map2 (final_angle ia sh pa) th (map2 (shear_direction p sau) xs ys))
  = List.length th.
Proof. intros Hx Hy. shape. Qed.

Lemma update_plot_returns (ia sh pdeg sdeg : R) (tv : list string) (p : string)
  (g : Globals) :
  population_wf g ->
  exists fig thetas,
    theta_all ia sh pdeg sdeg p (x g) (y g) (theta_random g) = Returns thetas /\
    update_plot ia sh pdeg sdeg tv p g
    = (Returns (map (ellipse_trace 30 ellipticity) (zip3 (x g) (y g) thetas) ++ fig,
                [Histogram (angles_deg thetas) 30]), g).
Proof.
  intros [Hx Hy].
  pose proof (theta_all_returns ia sh pdeg sdeg p _ _ _ Hx Hy) as Ht.
  pose proof (final_angles_length ia sh (np_deg2rad pdeg) (np_deg2rad sdeg) p
                _ _ _ Hx Hy) as Hl.
  set (thetas := map2 _ _ _) in *.
  destruct (vector_trace_returns (x g) (y g) thetas) as [v Hv]; try congruence.
  exists (if existsb (String.eqb "show_vectors") tv then [v] else []), thetas.
  split; [exact Ht|].
  unfold update_plot, read_global, lift.
  cbn [ret bind M_Monad]. rewrite Ht, make_ellipses_returns.
  destruct (existsb _ tv).
  - cbn [ret bind M_Monad]. unfold lift. now rewrite Hv.
  - cbn [ret bind M_Monad]. now rewrite app_nil_r.
Qed.

(** A callback only reads the module globals. *)
Lemma update_plot_frame (ia sh pdeg sdeg : R) (tv : list string) (p : string)
  (g : Globals) :
  snd (update_plot ia sh pdeg sdeg tv p g) = g.
Proof.
  unfold update_plot, read_global, lift.
  cbn [ret bind M_Monad].
  destruct (theta_all _ _ _ _ _ _ _ _) as [thetas|e]; [|reflexivity].
  destruct (make_ellipses _ _ _ _) as [ellipses|e]; [|reflexivity].
  destruct (existsb _ tv); cbn [ret bind M_Monad]; unfold lift.
  - destruct (vector_trace _ _ _); reflexivity.
  - reflexivity.
Qed.

(** ** The final angles *)


Lemma final_angle_unperturbed (pa : R) (th dirs : ndarray) :
  List.length dirs = List.length th ->
  map2 (final_angle 0 0 pa) th dirs = th.
Proof.
  revert dirs; induction th as [|t th IH]; intros [|d dirs] H; simpl in *;
    try discriminate; auto.
  rewrite IH by congruence. f_equal. unfold final_angle. ring.
Qed.


Lemma np_deg2rad_0 : np_deg2rad 0 = 0.
Proof. unfold np_deg2rad. ring. Qed.

Lemma shear_angles_fallback (p : string) (sau : R) (xs ys : ndarray) :
  p <> "uniform"%string -> p <> "radial"%string -> p <> "tangential"%string ->
  shear_angles p sau xs ys = shear_angles "uniform" 0 xs ys.
Proof.
  intros Hu Hr Ht. unfold shear_angles.
  apply String.eqb_neq in Hu, Hr, Ht. rewrite Hu, Hr, Ht.
  reflexivity.
Qed.

Lemma theta_all_fallback (ia sh pdeg sdeg : R) (p : string) (xs ys th : ndarray) :
  p <> "uniform"%string -> p <> "radial"%string -> p <> "tangential"%string ->
  theta_all ia sh pdeg sdeg p xs ys th = theta_all ia sh pdeg 0 "uniform" xs ys th.
Proof.
  intros Hu Hr Ht. unfold theta_all.
  rewrite (shear_angles_fallback p _ xs ys Hu Hr Ht), np_deg2rad_0.
  reflexivity.
Qed.

(** C1. For a population as the module builds it and all real arguments,
    the callback's final angles are, galaxy by galaxy, the base angle plus
    [ia_strength * sin (2 * (preferred_angle - base))] plus
    [shear_strength * sin (2 * (direction - base))], where the direction is
    the galaxy's entry of [shear_angles] for the chosen pattern and the
    preferred angle is the slider value in radians.  The array is this plain
    sum: the ellipses are turned by these very angles, and only the
    histogram takes them modulo 180 degrees. *)
Theorem theta_all_is_plain_sum (ia sh pdeg sdeg : R) (tv : list string)
  (p : string) (g : Globals) :
  population_wf g ->
  exists dirs thetas overlay,
    shear_angles p (np_deg2rad sdeg) (x g) (y g) = Returns dirs /\
    theta_all ia sh pdeg sdeg p (x g) (y g) (theta_random g) = Returns thetas /\
    List.length dirs = List.length (theta_random g) /\
    List.length thetas = List.length (theta_random g) /\
    (forall i theta0 d,
       nth_error (theta_random g) i = Some theta0 ->
       nth_error dirs i = Some d ->
       nth_error thetas i
       = Some (theta0 + ia * sin (2 * (np_deg2rad pdeg - theta0))
                      + sh * sin (2 * (d - theta0)))) /\
    update_plot ia sh pdeg sdeg tv p g
    = (Returns (map (ellipse_trace 30 ellipticity) (zip3 (x g) (y g) thetas)
                  ++ overlay,
                [Histogram (angles_deg thetas) 30]), g).
Proof.
  intros Hg.
  destruct (update_plot_returns ia sh pdeg sdeg tv p g Hg)
    as (overlay & thetas & Ht & Hu).
  destruct Hg as [Hx Hy].
  rewrite theta_all_returns in Ht by assumption.
  injection Ht as <-.
  exists (map2 (shear_direction p (np_deg2rad sdeg)) (x g) (y g)).
  eexists. exists overlay. repeat apply conj.
  - apply shear_angles_returns. congruence.
  - now apply theta_all_returns.
  - shape.
  - shape.
  - intros i theta0 d H0 Hd.
    now rewrite (map2_nth_error _ _ _ i theta0 d H0 Hd).
  - exact Hu.
Qed.

Lemma theta_all_is_plain_sum_witness :
  exists dirs thetas overlay,
    shear_angles "uniform" (np_deg2rad 90) [50] [50] = Returns dirs /\
    theta_all 1 0 45 90 "uniform" [50] [50] [0] = Returns thetas /\
    List.length dirs = 1%nat /\
    List.length thetas = 1%nat /\
    (forall i theta0 d,
       nth_error [0] i = Some theta0 ->
       nth_error dirs i = Some d ->
       nth_error thetas i
       = Some (theta0 + 1 * sin (2 * (np_deg2rad 45 - theta0))
                      + 0 * sin (2 * (d - theta0)))) /\
    update_plot 1 0 45 90 [] "uniform" one_galaxy
    = (Returns (map (ellipse_trace 30 ellipticity) (zip3 [50] [50] thetas)
                  ++ overlay,
                [Histogram (angles_deg thetas) 30]), one_galaxy).
Proof.
  apply (theta_all_is_plain_sum 1 0 45 90 [] "uniform" one_galaxy).
  split; reflexivity.
Defined.

(** C2. With both strengths zero, whatever the preferred angle, the shear
    angle and the shear pattern, the final angles are the base angles. *)
Theorem zero_perturbation_identity (ia sh pdeg sdeg : R) (p : string) (g : Globals) :
  population_wf g -> ia = 0 -> sh = 0 ->
  theta_all ia sh pdeg sdeg p (x g) (y g) (theta_random g)
  = Returns (theta_random g).
Proof.
  intros [Hx Hy] -> ->.
  rewrite theta_all_returns by assumption.
  rewrite final_angle_unperturbed by shape.
  reflexivity.
Qed.

Lemma zero_perturbation_identity_witness :
  theta_all 0 0 45 90 "radial" [50] [50] [0] = Returns [0].
Proof.
  apply (zero_perturbation_identity 0 0 45 90 "radial" one_galaxy).
  - split; reflexivity.
  - reflexivity.
  - reflexivity.
Defined.

(** Two runs on the one-galaxy population: full intrinsic alignment toward
    45 degrees turns the galaxy by one radian; a uniform shear at 90 degrees
    leaves a galaxy of base angle 0 where it is. *)
Example theta_all_intrinsic_only :
  theta_all 1 0 45 90 "uniform" [50] [50] [0] = Returns [1].
Proof.
  rewrite theta_all_returns by reflexivity.
  cbn [map2]. unfold final_angle, np_deg2rad. do 2 f_equal.
  replace (2 * (45 * (PI / 180) - 0)) with (PI / 2) by field.
  rewrite sin_PI2. ring.
Qed.

Example theta_all_shear_only :
  theta_all 0 1 45 90 "uniform" [50] [50] [0] = Returns [0].
Proof.
  rewrite theta_all_returns by reflexivity.
  cbn [map2]. unfold final_angle, shear_direction, np_deg2rad. cbn [String.eqb Ascii.eqb Bool.eqb].
  do 2 f_equal.
  replace (2 * (90 * (PI / 180) - 0)) with PI by field.
  rewrite sin_PI. ring.
Qed.

(** C4. A pattern string other than the three known ones gives the final
    angles, and the whole result of the callback, of the pattern "uniform"
    with a shear angle of 0 degrees, whatever the shear angle passed along
    with it; on a population as the module builds it the callback returns
    and raises nothing. *)
Theorem unknown_pattern_is_uniform_zero (ia sh pdeg sdeg : R) (tv : list string)
  (p : string) (g : Globals) :
  p <> "uniform"%string -> p <> "radial"%string -> p <> "tangential"%string ->
  theta_all ia sh pdeg sdeg p (x g) (y g) (theta_random g)
  = theta_all ia sh pdeg 0 "uniform" (x g) (y g) (theta_random g) /\
  update_plot ia sh pdeg sdeg tv p g = update_plot ia sh pdeg 0 tv "uniform" g /\
  (population_wf g ->
   exists thetas figs,
     theta_all ia sh pdeg sdeg p (x g) (y g) (theta_random g) = Returns thetas /\
     fst (update_plot ia sh pdeg sdeg tv p g) = Returns figs).
Proof.
  intros Hu Hr Ht. split; [|split].
  - now apply theta_all_fallback.
  - unfold update_plot, read_global. cbn [ret bind M_Monad].
    now rewrite (theta_all_fallback ia sh pdeg sdeg p _ _ _ Hu Hr Ht).
  - intros Hg.
    destruct (update_plot_returns ia sh pdeg sdeg tv p g Hg) as (fig & thetas & H1 & H2).
    exists thetas. eexists. split; [exact H1|].
    rewrite H2. reflexivity.
Qed.

Lemma unknown_pattern_is_uniform_zero_witness :
  theta_all 1 1 45 90 "unknown_value" [50] [50] [0]
  = theta_all 1 1 45 0 "uniform" [50] [50] [0] /\
  update_plot 1 1 45 90 [] "unknown_value" one_galaxy
  = update_plot 1 1 45 0 [] "uniform" one_galaxy /\
  (population_wf one_galaxy ->
   exists thetas figs,
     theta_all 1 1 45 90 "unknown_value" [50] [50] [0] = Returns thetas /\
     fst (update_plot 1 1 45 90 [] "unknown_value" one_galaxy) = Returns figs).
Proof.
  apply (unknown_pattern_is_uniform_zero 1 1 45 90 [] "unknown_value" one_galaxy);
    discriminate.
Defined.



(** ** The population is never written *)

Lemma session_frame (rs : list request) (g : Globals) : session rs g = g.
Proof.
  revert g; induction rs as [|r rs IH]; intros g; [reflexivity|].
  cbn [session]. unfold serve. rewrite update_plot_frame. apply IH.
Qed.

(** C9. A call of the callback, whether it returns or raises, leaves the
    module globals as they were, and so does any sequence of calls: after
    it the positions and base angles are those the module body drew, still
    [N_galaxies] of each. *)
Theorem population_unchanged (u : nat -> R) (rs : list request) :
  (forall ia sh pdeg sdeg tv p g, snd (update_plot ia sh pdeg sdeg tv p g) = g) /\
  x (session rs (module_init u)) = x (module_init u) /\
  y (session rs (module_init u)) = y (module_init u) /\
  theta_random (session rs (module_init u)) = theta_random (module_init u) /\
  List.length (x (session rs (module_init u))) = N_galaxies /\
  List.length (y (session rs (module_init u))) = N_galaxies /\
  List.length (theta_random (session rs (module_init u))) = N_galaxies.
Proof.
  split; [intros; apply update_plot_frame|].
  rewrite session_frame.
  destruct (module_init_wf u) as [Hx Hy].
  pose proof (module_init_size u) as Hn.
  repeat split; congruence.
Qed.

(** ** Histogram angles *)

(** C5.  On float64 the histogram angle can be 180 itself, outside
    [0, 180).  A final angle of -2^-52 radians has -1.27e-14 degrees;
    [fmod] leaves it, and adding 180 rounds to 180 exactly.  The callback
    reaches that final angle on the fifth galaxy of the seeded population
    with [ia_strength] = -1.0054654753821144, [shear_strength] = 0 and both
    angles at 102.60892818551011 degrees under the uniform pattern. *)
Theorem histogram_angle_reaches_180 :
  B64.final_angle B64.libm_samples (-0x1.01662f7605f55p+0) 0
    (B64.np_deg2rad 0x1.9a6f8adec983ap+6) (B64.np_deg2rad 0x1.9a6f8adec983ap+6)
    B64.theta_4
  = (-0x1p-52)%float /\
  B64.angles_deg (-0x1p-52) = 180%float /\
  (B64.angles_deg (-0x1p-52) <? 180)%float = false /\
  B64.angles_deg (-0x1.79ca10c924223p-67) = 180%float.
Proof. repeat split; vm_compute; reflexivity. Qed.

(** ** Ellipse outlines *)

Lemma np_linspace_length (a b : R) (n : nat) :
  List.length (np_linspace a b n) = n.
Proof.
  destruct n as [|[|k]]; [reflexivity | reflexivity |].
  unfold np_linspace. rewrite length_app, length_map, length_seq.
  simpl. lia.
Qed.

Lemma np_linspace_first (a b : R) (n : nat) :
  (2 <= n)%nat -> nth_error (np_linspace a b n) 0 = Some a.
Proof.
  destruct n as [|[|k]]; try lia. intros _.
  unfold np_linspace. cbn [seq map app nth_error].
  f_equal. simpl. ring.
Qed.

Lemma np_linspace_last (a b : R) (n : nat) :
  (2 <= n)%nat -> nth_error (np_linspace a b n) (n - 1) = Some b.
Proof.
  destruct n as [|[|k]]; try lia. intros _.
  unfold np_linspace.
  rewrite nth_error_app2; rewrite length_map, length_seq; [|lia].
  replace (S (S k) - 1 - S k)%nat with 0%nat by lia.
  reflexivity.
Qed.

(** C6.  On float64 the outline is not closed.  The last perimeter sample
    is [2 * np.pi], where the C library's sine is -2.45e-16, not 0.  At the
    origin with angle 0 the outline starts at (0.5, 0) and ends at
    (0.5, -7.35e-17); at start-up the ninth galaxy of the seeded
    population, drawn with its base angle, gets an outline whose last
    ordinate is one unit in the last place above its first. *)
Theorem outline_not_closed :
  nth_error (B64.ellipse_outline B64.libm_samples 30 0 0 0 B64.ellipticity) 0
  = Some (0.5%float, 0%float) /\
  nth_error (B64.ellipse_outline B64.libm_samples 30 0 0 0 B64.ellipticity) 29
  = Some (0.5%float, (-0x1.52dc7707ed4d5p-54)%float) /\
  nth_error (B64.ellipse_outline B64.libm_samples 30 B64.x_8 B64.y_8
               B64.theta_8 B64.ellipticity) 0
  = Some (0x1.dd1143017f1bdp+5%float, 0x1.4e223cb71b43cp-1%float) /\
  nth_error (B64.ellipse_outline B64.libm_samples 30 B64.x_8 B64.y_8
               B64.theta_8 B64.ellipticity) 29
  = Some (0x1.dd1143017f1bdp+5%float, 0x1.4e223cb71b43dp-1%float) /\
  List.length (B64.ellipse_outline B64.libm_samples 30 B64.x_8 B64.y_8
                 B64.theta_8 B64.ellipticity) = 30%nat.
Proof. repeat split; vm_compute; reflexivity. Qed.

(** ** Periodicity of the offsets *)

Lemma sin_double_half_turn (a t : R) :
  sin (2 * (a - (t + PI))) = sin (2 * (a - t)).
Proof.
  replace (2 * (a - (t + PI))) with (2 * (a - t) - 2 * PI) by ring.
  rewrite sin_minus, cos_2PI, sin_2PI. ring.
Qed.

Lemma map_half_turned (h : R -> R) (th th' : ndarray) :
  (forall t, h (t + PI) = h t) -> half_turned th th' -> map h th' = map h th.
Proof.
  intros Hh H. induction H as [|t t' th th' [-> | ->] _ IH]; simpl;
    [reflexivity | now rewrite IH | now rewrite IH, Hh].
Qed.

Lemma map2_half_turned (h : R -> R -> R) (sa th th' : ndarray) :
  (forall u t, h u (t + PI) = h u t) -> half_turned th th' ->
  map2 h sa th' = map2 h sa th.
Proof.
  intros Hh H. revert sa.
  induction H as [|t t' th th' [-> | ->] _ IH]; intros [|u sa]; simpl;
    try reflexivity; [now rewrite IH | now rewrite IH, Hh].
Qed.

Lemma broadcast2_half_turned (h : R -> R -> R) (sa th th' : ndarray) :
  (forall u t, h u (t + PI) = h u t) -> half_turned th th' ->
  broadcast2 h sa th' = broadcast2 h sa th.
Proof.
  intros Hh H. unfold broadcast2.
  rewrite <- (Forall2_length H).
  rewrite (map2_half_turned h sa th th' Hh H).
  destruct (Nat.eqb _ _); [reflexivity|].
  unfold scalar_arr, arr_scalar.
  destruct sa as [|u [|u' sa]].
  - destruct H as [|t t' th th' Ht H]; [reflexivity|].
    destruct H; reflexivity.
  - now rewrite (map_half_turned (fun v => h u v) th th' (Hh u) H).
  - destruct H as [|t t' th th' Ht H]; [reflexivity|].
    destruct H; [|reflexivity].
    destruct Ht as [-> | ->]; [reflexivity|].
    f_equal. apply map_ext. intros v. apply Hh.
Qed.

Lemma shear_offset_fused (sh : R) (sa th : ndarray) :
  shear_offset sh sa th
  = broadcast2 (fun u t => sh * sin (2 * (u - t))) sa th.
Proof.
  unfold shear_offset, broadcast2.
  destruct (Nat.eqb _ _).
  - cbn [ret bind outcome_Monad]. unfold scalar_arr, np_sin.
    rewrite !map_map, map_map2. reflexivity.
  - destruct sa as [|u [|u' sa]]; destruct th as [|t [|t' th]];
      cbn [ret bind outcome_Monad]; try reflexivity;
      unfold scalar_arr, arr_scalar, np_sin; rewrite !map_map; reflexivity.
Qed.

(** C7. Turning any of the base angles by pi changes neither the
    intrinsic-alignment offsets nor the shear offsets. *)
Theorem offsets_half_turn_invariant (ia sh pa : R) (sa th th' : ndarray) :
  half_turned th th' ->
  intrinsic_offset ia pa th' = intrinsic_offset ia pa th /\
  shear_offset sh sa th' = shear_offset sh sa th.
Proof.
  intros H. split.
  - unfold intrinsic_offset, scalar_arr, np_sin. rewrite !map_map.
    apply map_half_turned; [|exact H].
    intros t. now rewrite sin_double_half_turn.
  - rewrite !shear_offset_fused.
    apply broadcast2_half_turned; [|exact H].
    intros u t. now rewrite sin_double_half_turn.
Qed.

Lemma offsets_half_turn_invariant_witness :
  intrinsic_offset 1 (PI / 4) [0 + PI; 1] = intrinsic_offset 1 (PI / 4) [0; 1] /\
  shear_offset 1 [PI / 2; 0] [0 + PI; 1] = shear_offset 1 [PI / 2; 0] [0; 1].
Proof.
  apply (offsets_half_turn_invariant 1 1 (PI / 4) [PI / 2; 0] [0; 1] [0 + PI; 1]).
  constructor; [right; reflexivity|].
  constructor; [left; reflexivity|].
  constructor.
Defined.

(** ** The centre of the shear patterns *)

Lemma arctan2_origin : arctan2 0 0 = 0.
Proof.
  unfold arctan2.
  destruct (Rlt_dec 0 0) as [H|_]; [lra|reflexivity].
Qed.

(** What the code computes for each galaxy: the angle of its position seen
    from the point (0.5, 0.5). *)
Lemma shear_angles_nth (p : string) (sau : R) (xs ys : ndarray) (i : nat)
  (xi yi : R) :
  List.length xs = List.length ys ->
  nth_error xs i = Some xi -> nth_error ys i = Some yi ->
  exists dirs,
    shear_angles p sau xs ys = Returns dirs /\
    nth_error dirs i = Some (shear_direction p sau xi yi).
Proof.
  intros H Hx Hy. eexists. split; [now apply shear_angles_returns|].
  now apply map2_nth_error.
Qed.

Lemma atan_pos (v : R) : 0 < v -> 0 < atan v.
Proof. intros Hv. rewrite <- atan_0. now apply atan_increasing. Qed.

Lemma atan_neg (v : R) : v < 0 -> atan v < 0.
Proof. intros Hv. rewrite <- atan_0. now apply atan_increasing. Qed.

(** For the galaxies of the lower half of the field, right of and above
    0.5, the tangential direction of the code is positive where the angle
    about the field midpoint is negative. *)
Lemma tangential_lower_half (sau xi yi : R) :
  0.5 < xi -> 0.5 < yi < field_size / 2 ->
  0 < shear_direction "tangential" sau xi yi /\
  arctan2 (yi - field_size / 2) (xi - field_size / 2) < 0.
Proof.
  intros Hx [Hy Hy']. unfold shear_direction, field_size in *. cbn.
  pose proof PI_RGT_0 as Hpi. split.
  - unfold arctan2. destruct (Rlt_dec 0 (xi - 0.5)) as [_|n]; [|lra].
    apply atan_pos. apply Rdiv_lt_0_compat; lra.
  - unfold arctan2.
    destruct (Rlt_dec 0 (xi - 100 / 2)) as [Hp|Hp].
    + apply atan_neg.
      replace ((yi - 100 / 2) / (xi - 100 / 2))
        with (- ((100 / 2 - yi) / (xi - 100 / 2))) by (field; lra).
      assert (0 < (100 / 2 - yi) / (xi - 100 / 2))
        by (apply Rdiv_lt_0_compat; lra).
      lra.
    + destruct (Rlt_dec (xi - 100 / 2) 0) as [Hn|Hn].
      * destruct (Rle_dec 0 (yi - 100 / 2)) as [Hq|_]; [lra|].
        pose proof (atan_bound ((yi - 100 / 2) / (xi - 100 / 2))). lra.
      * destruct (Rlt_dec 0 (yi - 100 / 2)) as [Hq|_]; [lra|].
        destruct (Rlt_dec (yi - 100 / 2) 0) as [_|Hq]; lra.
Qed.

(** C3, amended.  For every galaxy at (xi, yi) the radial direction is
    [arctan2 (yi - 0.5) (xi - 0.5) + pi / 2] and the tangential direction
    [arctan2 (yi - 0.5) (xi - 0.5)]: the centre of the patterns is the
    fixed point (0.5, 0.5) of the raw coordinates. *)
Theorem shear_centre_is_half (sau : R) (xs ys : ndarray) (i : nat) (xi yi : R) :
  List.length xs = List.length ys ->
  nth_error xs i = Some xi -> nth_error ys i = Some yi ->
  exists radial tangential,
    shear_angles "radial" sau xs ys = Returns radial /\
    shear_angles "tangential" sau xs ys = Returns tangential /\
    nth_error radial i = Some (arctan2 (yi - 0.5) (xi - 0.5) + PI / 2) /\
    nth_error tangential i = Some (arctan2 (yi - 0.5) (xi - 0.5)).
Proof.
  intros H Hx Hy. do 2 eexists.
  split; [now apply shear_angles_returns|].
  split; [now apply shear_angles_returns|].
  split; now rewrite (map2_nth_error _ _ _ i xi yi Hx Hy).
Qed.

Lemma shear_centre_is_half_witness :
  exists radial tangential,
    shear_angles "radial" 0 [50; 0.5] [50; 0.5] = Returns radial /\
    shear_angles "tangential" 0 [50; 0.5] [50; 0.5] = Returns tangential /\
    nth_error radial 1 = Some (arctan2 (0.5 - 0.5) (0.5 - 0.5) + PI / 2) /\
    nth_error tangential 1 = Some (arctan2 (0.5 - 0.5) (0.5 - 0.5)).
Proof.
  apply (shear_centre_is_half 0 [50; 0.5] [50; 0.5] 1 0.5 0.5); reflexivity.
Defined.

(** C3, the claim as stated fails.  The second galaxy of the seeded
    population sits at (95.07143064099162, 8.413996499504883), to the digits
    Python prints.  The code gives it a positive tangential direction, the
    angle seen from (0.5, 0.5); seen from the field midpoint
    [(field_size / 2, field_size / 2)] the angle is negative. *)
Lemma shear_centre_not_midpoint :
  exists d,
    shear_angles "tangential" (np_deg2rad 90) [95.07143064099162]
      [8.413996499504883] = Returns [d] /\
    shear_angles "radial" (np_deg2rad 90) [95.07143064099162]
      [8.413996499504883] = Returns [d + PI / 2] /\
    0 < d /\
    arctan2 (8.413996499504883 - field_size / 2)
      (95.07143064099162 - field_size / 2) < 0.
Proof.
  destruct (tangential_lower_half (np_deg2rad 90) 95.07143064099162
              8.413996499504883) as [Hd Hm].
  { lra. }
  { unfold field_size. lra. }
  exists (shear_direction "tangential" (np_deg2rad 90) 95.07143064099162
            8.413996499504883).
  rewrite !shear_angles_returns by reflexivity.
  repeat split; assumption.
Qed.

(** * Further properties of the code *)

(** ** The population the module draws *)

(** X1.  Positions fall in the field and base angles in [0, pi) as soon as the
    generator's unit samples lie in [0, 1). *)
Theorem population_in_range (u : nat -> R) :
  (forall i, 0 <= u i < 1) ->
  Forall (fun v => 0 <= v < field_size) (x (module_init u)) /\
  Forall (fun v => 0 <= v < field_size) (y (module_init u)) /\
  Forall (fun t => 0 <= t < PI) (theta_random (module_init u)).
Proof.
  intros Hu. pose proof PI_RGT_0 as Hpi.
  unfold module_init, np_random_uniform, field_size. cbn [x y theta_random].
  repeat split; apply Forall_forall; intros v Hv;
    apply in_map_iff in Hv; destruct Hv as (i & <- & _);
    match goal with |- context [u ?k] => pose proof (Hu k) end; nra.
Qed.

Lemma population_in_range_witness :
  Forall (fun v => 0 <= v < field_size) (x (module_init (fun _ => 1 / 2))) /\
  Forall (fun v => 0 <= v < field_size) (y (module_init (fun _ => 1 / 2))) /\
  Forall (fun t => 0 <= t < PI) (theta_random (module_init (fun _ => 1 / 2))).
Proof.
  apply (population_in_range (fun _ => 1 / 2)). intros _. lra.
Defined.

(** ** Shear directions *)

Lemma arctan2_range (x1 x2 : R) : - PI < arctan2 x1 x2 <= PI.
Proof.
  pose proof PI_RGT_0 as Hpi.
  pose proof (atan_bound (x1 / x2)) as Hb.
  unfold arctan2.
  destruct (Rlt_dec 0 x2) as [Hp|Hp]; [lra|].
  destruct (Rlt_dec x2 0) as [Hn|Hn].
  - destruct (Rle_dec 0 x1) as [Hq|Hq].
    + assert (atan (x1 / x2) <= 0).
      { destruct Hq as [Hq| <-].
        - left. apply atan_neg.
          replace (x1 / x2) with (- (x1 / - x2)) by (field; lra).
          assert (0 < x1 / - x2) by (apply Rdiv_lt_0_compat; lra). lra.
        - right. replace (0 / x2) with 0 by (field; lra). apply atan_0. }
      lra.
    + assert (0 < atan (x1 / x2)).
      { apply atan_pos.
        replace (x1 / x2) with (- x1 / - x2) by (field; lra).
        apply Rdiv_lt_0_compat; lra. }
      lra.
  - destruct (Rlt_dec 0 x1); [lra|]. destruct (Rlt_dec x1 0); lra.
Qed.

Lemma Forall_map2 (P : R -> Prop) (f : R -> R -> R) (a b : ndarray) :
  (forall u v, P (f u v)) -> Forall P (map2 f a b).
Proof.
  intros H. revert b; induction a as [|u a IH]; intros [|v b]; simpl;
    constructor; auto.
Qed.

Lemma map2_map2_ext (f f' g g' : R -> R -> R) (th xs ys : ndarray) :
  (forall t u v, f t (g u v) = f' t (g' u v)) ->
  map2 f th (map2 g xs ys) = map2 f' th (map2 g' xs ys).
Proof.
  intros H. revert xs ys; induction th as [|t th IH]; intros [|u xs] [|v ys];
    simpl; try reflexivity.
  now rewrite H, IH.
Qed.

(** X2.  The directions of the two position-dependent patterns: "tangential"
    gives angles in (-pi, pi], "radial" the same angles a quarter turn
    further. *)
Theorem shear_direction_bounds (sau : R) (xs ys : ndarray) :
  List.length xs = List.length ys ->
  exists dirs,
    shear_angles "tangential" sau xs ys = Returns dirs /\
    shear_angles "radial" sau xs ys = Returns (dirs .+ (PI / 2)) /\
    List.length dirs = List.length xs /\
    Forall (fun d => - PI < d <= PI) dirs /\
    Forall (fun d => - (PI / 2) < d <= 3 * PI / 2) (dirs .+ (PI / 2)).
Proof.
  intros H. eexists. split; [now apply shear_angles_returns|].
  rewrite shear_angles_returns by assumption.
  unfold arr_scalar. rewrite map_map2.
  repeat split.
  - shape.
  - apply Forall_map2. intros u v. cbn. apply arctan2_range.
  - apply Forall_map2. intros u v. cbn.
    pose proof (arctan2_range (v - 0.5) (u - 0.5)). lra.
Qed.

Lemma shear_direction_bounds_witness :
  exists dirs,
    shear_angles "tangential" 0 [50; 0] [50; 75] = Returns dirs /\
    shear_angles "radial" 0 [50; 0] [50; 75] = Returns (dirs .+ (PI / 2)) /\
    List.length dirs = 2%nat /\
    Forall (fun d => - PI < d <= PI) dirs /\
    Forall (fun d => - (PI / 2) < d <= 3 * PI / 2) (dirs .+ (PI / 2)).
Proof.
  apply (shear_direction_bounds 0 [50; 0] [50; 75]). reflexivity.
Defined.

Lemma sin_double_quarter_turn (a t : R) :
  sin (2 * (a + PI / 2 - t)) = - sin (2 * (a - t)).
Proof.
  replace (2 * (a + PI / 2 - t)) with (2 * (a - t) + PI) by field.
  apply neg_sin.
Qed.

Lemma sin_double_half_turn_left (a t : R) :
  sin (2 * (a + PI - t)) = sin (2 * (a - t)).
Proof.
  replace (2 * (a + PI - t)) with (2 * (a - t) + 2 * PI) by ring.
  rewrite sin_plus, cos_2PI, sin_2PI. ring.
Qed.

(** X3.  "radial" and "tangential" shear turn every galaxy by opposite amounts:
    the radial pattern at strength [sh] is the tangential one at [- sh]. *)
Theorem radial_is_opposite_tangential (ia sh pdeg sdeg : R) (g : Globals) :
  population_wf g ->
  theta_all ia sh pdeg sdeg "radial" (x g) (y g) (theta_random g)
  = theta_all ia (- sh) pdeg sdeg "tangential" (x g) (y g) (theta_random g).
Proof.
  intros [Hx Hy]. rewrite !theta_all_returns by assumption.
  f_equal. apply map2_map2_ext. intros t u v.
  unfold final_angle, shear_direction. cbn.
  rewrite sin_double_quarter_turn. ring.
Qed.

Lemma radial_is_opposite_tangential_witness :
  theta_all 1 1 45 90 "radial" [50] [50] [0]
  = theta_all 1 (- 1) 45 90 "tangential" [50] [50] [0].
Proof.
  apply (radial_is_opposite_tangential 1 1 45 90 one_galaxy).
  split; reflexivity.
Defined.

(** ** The angle sliders *)

Lemma np_deg2rad_plus_180 (d : R) : np_deg2rad (d + 180) = np_deg2rad d + PI.
Proof. unfold np_deg2rad. field. Qed.

Lemma np_deg2rad_plus_90 (d : R) : np_deg2rad (d + 90) = np_deg2rad d + PI / 2.
Proof. unfold np_deg2rad. field. Qed.

(** X4.  The two ends of the angle sliders coincide: a preferred angle raised by
    180 degrees gives the same final angles for every pattern, and so does
    the shear angle of the uniform pattern. *)
Theorem sliders_period_180 (ia sh pdeg sdeg : R) (p : string) (g : Globals) :
  population_wf g ->
  theta_all ia sh (pdeg + 180) sdeg p (x g) (y g) (theta_random g)
  = theta_all ia sh pdeg sdeg p (x g) (y g) (theta_random g) /\
  theta_all ia sh pdeg (sdeg + 180) "uniform" (x g) (y g) (theta_random g)
  = theta_all ia sh pdeg sdeg "uniform" (x g) (y g) (theta_random g).
Proof.
  intros [Hx Hy]. rewrite !theta_all_returns by assumption.
  rewrite !np_deg2rad_plus_180. split; f_equal.
  - apply map2_map2_ext. intros t u v. unfold final_angle.
    now rewrite sin_double_half_turn_left.
  - apply map2_map2_ext. intros t u v. unfold final_angle, shear_direction.
    cbn. now rewrite sin_double_half_turn_left.
Qed.

Lemma sliders_period_180_witness :
  theta_all 1 1 (0 + 180) 90 "radial" [50] [50] [0]
  = theta_all 1 1 0 90 "radial" [50] [50] [0] /\
  theta_all 1 1 0 (90 + 180) "uniform" [50] [50] [0]
  = theta_all 1 1 0 90 "uniform" [50] [50] [0].
Proof.
  apply (sliders_period_180 1 1 0 90 "radial" one_galaxy).
  split; reflexivity.
Defined.

(** X5.  A preferred angle raised by 90 degrees reverses the intrinsic
    alignment: it gives the final angles of the opposite strength. *)
Theorem preferred_angle_quarter_turn (ia sh pdeg sdeg : R) (p : string)
  (g : Globals) :
  population_wf g ->
  theta_all ia sh (pdeg + 90) sdeg p (x g) (y g) (theta_random g)
  = theta_all (- ia) sh pdeg sdeg p (x g) (y g) (theta_random g).
Proof.
  intros [Hx Hy]. rewrite !theta_all_returns by assumption.
  rewrite np_deg2rad_plus_90. f_equal.
  apply map2_map2_ext. intros t u v. unfold final_angle.
  rewrite sin_double_quarter_turn. ring.
Qed.

Lemma preferred_angle_quarter_turn_witness :
  theta_all 1 1 (45 + 90) 90 "uniform" [50] [50] [0]
  = theta_all (- 1) 1 45 90 "uniform" [50] [50] [0].
Proof.
  apply (preferred_angle_quarter_turn 1 1 45 90 "uniform" one_galaxy).
  split; reflexivity.
Defined.

(** ** What [make_ellipses] draws *)

Lemma nth_error_map_inv {A B : Type} (f : A -> B) (l : list A) (k : nat) (b : B) :
  nth_error (map f l) k = Some b ->
  exists a, nth_error l k = Some a /\ b = f a.
Proof.
  rewrite nth_error_map. destruct (nth_error l k) as [a|]; simpl; [|discriminate].
  intros E. inversion E. now exists a.
Qed.

Lemma zip3_length {A B C : Type} (a : list A) (b : list B) (c : list C) :
  List.length (zip3 a b c)
  = Nat.min (List.length a) (Nat.min (List.length b) (List.length c)).
Proof.
  revert b c; induction a as [|u a IH]; intros [|v b] [|w c]; simpl; auto.
Qed.

(** X6.  [make_ellipses] never raises.  It returns one blue trace per galaxy, as
    many as the shortest of its three arguments has entries, each of 30
    points with no gap in the line. *)
Theorem make_ellipses_shape (xs ys thetas : ndarray) (e : R) :
  exists traces,
    make_ellipses xs ys thetas e = Returns traces /\
    List.length traces
    = Nat.min (List.length xs) (Nat.min (List.length ys) (List.length thetas)) /\
    Forall (fun tr => exists pxs pys,
                tr = Scatter (map Some pxs) (map Some pys) "blue" /\
                List.length pxs = 30%nat /\ List.length pys = 30%nat) traces.
Proof.
  eexists. split; [apply make_ellipses_returns|]. split.
  - rewrite length_map. apply zip3_length.
  - apply Forall_forall. intros tr Htr.
    apply in_map_iff in Htr. destruct Htr as ([[xi yi] t] & <- & _).
    unfold ellipse_trace. do 2 eexists. split; [reflexivity|].
    now rewrite !length_map, np_linspace_length.
Qed.

Lemma outline_unrotated (xi yi t e tau : R) :
  (outline_x xi t e tau - xi) * cos t + (outline_y yi t e tau - yi) * sin t
  = 1 / 2 * cos tau /\
  - (outline_x xi t e tau - xi) * sin t + (outline_y yi t e tau - yi) * cos t
  = e / 2 * sin tau.
Proof.
  unfold outline_x, outline_y.
  pose proof (sin2_cos2 t) as H. unfold Rsqr in H.
  split.
  - replace ((cos t * (1 / 2 * cos tau) - sin t * (1 * e / 2 * sin tau) + xi - xi)
             * cos t
             + (sin t * (1 / 2 * cos tau) + cos t * (1 * e / 2 * sin tau) + yi - yi)
               * sin t)
      with ((sin t * sin t + cos t * cos t) * (1 / 2 * cos tau)) by ring.
    rewrite H. ring.
  - replace (- (cos t * (1 / 2 * cos tau) - sin t * (1 * e / 2 * sin tau) + xi - xi)
             * sin t
             + (sin t * (1 / 2 * cos tau) + cos t * (1 * e / 2 * sin tau) + yi - yi)
               * cos t)
      with ((sin t * sin t + cos t * cos t) * (e / 2 * sin tau)) by field.
    rewrite H. ring.
Qed.

(** X7.  Every point of an outline lies on the ellipse of semi-axes 1/2 and
    [e]/2 centred on the galaxy and turned by the galaxy's angle: in the
    frame of the axes, [(e * a)^2 + b^2 = (e / 2)^2]. *)
Theorem outline_on_ellipse (n : nat) (xi yi t e : R) :
  exists exs eys,
    ellipse_outline n xi yi t e = Returns (exs, eys) /\
    forall k px py,
      nth_error exs k = Some px -> nth_error eys k = Some py ->
      let a := (px - xi) * cos t + (py - yi) * sin t in
      let b := - (px - xi) * sin t + (py - yi) * cos t in
      (e * a) * (e * a) + b * b = (e / 2) * (e / 2).
Proof.
  do 2 eexists. split; [apply ellipse_outline_returns|].
  intros k px py Hx Hy a b. subst a b.
  apply nth_error_map_inv in Hx. destruct Hx as (tau & Htau & ->).
  apply nth_error_map_inv in Hy. destruct Hy as (tau' & Htau' & ->).
  assert (tau' = tau) by congruence. subst tau'.
  destruct (outline_unrotated xi yi t e tau) as [-> ->].
  pose proof (sin2_cos2 tau) as H. unfold Rsqr in H.
  replace (e * (1 / 2 * cos tau) * (e * (1 / 2 * cos tau))
           + e / 2 * sin tau * (e / 2 * sin tau))
    with (e / 2 * (e / 2) * (sin tau * sin tau + cos tau * cos tau)) by field.
  rewrite H. ring.
Qed.

Lemma outline_on_ellipse_witness :
  exists exs eys,
    ellipse_outline 30 50 50 1 ellipticity = Returns (exs, eys) /\
    forall k px py,
      nth_error exs k = Some px -> nth_error eys k = Some py ->
      let a := (px - 50) * cos 1 + (py - 50) * sin 1 in
      let b := - (px - 50) * sin 1 + (py - 50) * cos 1 in
      (ellipticity * a) * (ellipticity * a) + b * b
      = (ellipticity / 2) * (ellipticity / 2).
Proof. apply (outline_on_ellipse 30 50 50 1 ellipticity). Defined.



Lemma outline_full_turn (xi yi t e tau : R) :
  outline_x xi (t + 2 * PI) e tau = outline_x xi t e tau /\
  outline_y yi (t + 2 * PI) e tau = outline_y yi t e tau.
Proof.
  unfold outline_x, outline_y.
  rewrite cos_plus, sin_plus, cos_2PI, sin_2PI. split; ring.
Qed.

Lemma outline_half_turn (xi yi t e tau : R) :
  outline_x xi (t + PI) e tau = 2 * xi - outline_x xi t e tau /\
  outline_y yi (t + PI) e tau = 2 * yi - outline_y yi t e tau.
Proof.
  unfold outline_x, outline_y.
  rewrite neg_cos, neg_sin. split; ring.
Qed.

(** X9.  The outline depends on the angle modulo a full turn only, which is why
    the final angles need no wrapping before they are drawn; a half turn
    gives the outline reflected through the galaxy's position, point by
    point. *)
Theorem outline_turns (n : nat) (xi yi t e : R) :
  ellipse_outline n xi yi (t + 2 * PI) e = ellipse_outline n xi yi t e /\
  exists exs eys,
    ellipse_outline n xi yi t e = Returns (exs, eys) /\
    ellipse_outline n xi yi (t + PI) e
    = Returns (map (fun px => 2 * xi - px) exs, map (fun py => 2 * yi - py) eys).
Proof.
  rewrite !ellipse_outline_returns. split.
  - do 2 f_equal; apply map_ext; intros tau;
      now destruct (outline_full_turn xi yi t e tau).
  - do 2 eexists. split; [reflexivity|].
    rewrite !map_map. do 2 f_equal; apply map_ext; intros tau;
      now destruct (outline_half_turn xi yi t e tau).
Qed.

(** X10.  An outline of at least one sample starts at the end of the major axis
    that points along the galaxy's angle. *)
Theorem outline_starts_on_major_axis (n : nat) (xi yi t e : R) :
  (1 <= n)%nat ->
  exists exs eys,
    ellipse_outline n xi yi t e = Returns (exs, eys) /\
    nth_error exs 0 = Some (xi + cos t / 2) /\
    nth_error eys 0 = Some (yi + sin t / 2).
Proof.
  intros Hn. do 2 eexists. split; [apply ellipse_outline_returns|].
  assert (H0 : nth_error (np_linspace 0 (2 * PI) n) 0 = Some 0).
  { destruct n as [|[|k]]; [lia | reflexivity | apply np_linspace_first; lia]. }
  rewrite !(map_nth_error _ _ _ H0).
  unfold outline_x, outline_y. rewrite cos_0, sin_0.
  split; f_equal; field.
Qed.

Lemma outline_starts_on_major_axis_witness :
  exists exs eys,
    ellipse_outline 30 50 50 0 ellipticity = Returns (exs, eys) /\
    nth_error exs 0 = Some (50 + cos 0 / 2) /\
    nth_error eys 0 = Some (50 + sin 0 / 2).
Proof.
  apply (outline_starts_on_major_axis 30 50 50 0 ellipticity). lia.
Defined.

(** ** The overlay of orientation vectors *)

Lemma line_segments_length (ends : list (R * R * R * R)) :
  List.length (fst (line_segments ends)) = (3 * List.length ends)%nat /\
  List.length (snd (line_segments ends)) = (3 * List.length ends)%nat.
Proof.
  induction ends as [|[[[xs ys] xe] ye] ends [IHx IHy]]; [split; reflexivity|].
  cbn [line_segments]. destruct (line_segments ends) as [x_lines y_lines].
  cbn [fst snd] in *. cbn [app List.length]. rewrite IHx, IHy. split; lia.
Qed.

Lemma line_segments_nth (ends : list (R * R * R * R)) (k : nat)
  (xs ys xe ye : R) :
  nth_error ends k = Some (xs, ys, xe, ye) ->
  nth_error (fst (line_segments ends)) (3 * k) = Some (Some xs) /\
  nth_error (fst (line_segments ends)) (3 * k + 1) = Some (Some xe) /\
  nth_error (fst (line_segments ends)) (3 * k + 2) = Some None /\
  nth_error (snd (line_segments ends)) (3 * k) = Some (Some ys) /\
  nth_error (snd (line_segments ends)) (3 * k + 1) = Some (Some ye) /\
  nth_error (snd (line_segments ends)) (3 * k + 2) = Some None.
Proof.
  revert k; induction ends as [|[[[xs' ys'] xe'] ye'] ends IH]; intros k Hk.
  - destruct k; discriminate.
  - cbn [line_segments]. destruct (line_segments ends) as [x_lines y_lines].
    cbn [fst snd] in *. destruct k as [|k].
    + inversion Hk. subst. repeat split; reflexivity.
    + cbn [nth_error] in Hk. specialize (IH k Hk).
      replace (3 * S k)%nat with (S (S (S (3 * k)))) by lia.
      replace (S (S (S (3 * k))) + 1)%nat with (S (S (S (3 * k + 1)))) by lia.
      replace (S (S (S (3 * k))) + 2)%nat with (S (S (S (3 * k + 2)))) by lia.
      exact IH.
Qed.

Lemma zip4_nth_error {A B C D : Type} (a : list A) (b : list B) (c : list C)
  (d : list D) (k : nat) (u : A) (v : B) (w : C) (z : D) :
  nth_error a k = Some u -> nth_error b k = Some v ->
  nth_error c k = Some w -> nth_error d k = Some z ->
  nth_error (zip4 a b c d) k = Some (u, v, w, z).
Proof.
  revert b c d k; induction a as [|u' a IH];
    intros [|v' b] [|w' c] [|z' d] [|k] Ha Hb Hc Hd; simpl in *;
    try discriminate.
  - congruence.
  - now apply IH.
Qed.

Lemma zip4_length {A B C D : Type} (a : list A) (b : list B) (c : list C)
  (d : list D) :
  List.length b = List.length a -> List.length c = List.length a ->
  List.length d = List.length a ->
  List.length (zip4 a b c d) = List.length a.
Proof.
  revert b c d; induction a as [|u a IH]; intros [|v b] [|w c] [|z d] Hb Hc Hd;
    simpl in *; try discriminate; auto.
Qed.

Lemma vector_trace_lines (xs ys thetas : ndarray) :
  List.length xs = List.length thetas -> List.length ys = List.length thetas ->
  exists x_lines y_lines,
    vector_trace xs ys thetas = Returns (Scatter x_lines y_lines "red") /\
    List.length x_lines = (3 * List.length thetas)%nat /\
    List.length y_lines = (3 * List.length thetas)%nat /\
    forall k xk yk theta,
      nth_error xs k = Some xk -> nth_error ys k = Some yk ->
      nth_error thetas k = Some theta ->
      nth_error x_lines (3 * k) = Some (Some (xk - 0.5 * 2.5 * cos theta)) /\
      nth_error x_lines (3 * k + 1) = Some (Some (xk + 0.5 * 2.5 * cos theta)) /\
      nth_error x_lines (3 * k + 2) = Some None /\
      nth_error y_lines (3 * k) = Some (Some (yk - 0.5 * 2.5 * sin theta)) /\
      nth_error y_lines (3 * k + 1) = Some (Some (yk + 0.5 * 2.5 * sin theta)) /\
      nth_error y_lines (3 * k + 2) = Some None.
Proof.
  intros Hx Hy. unfold vector_trace.
  rewrite !broadcast2_same by shape.
  cbn [ret bind outcome_Monad].
  set (ends := zip4 _ _ _ _).
  pose proof (line_segments_length ends) as [Lx Ly].
  pose proof (line_segments_nth ends) as Hn.
  destruct (line_segments ends) as [x_lines y_lines]. cbn [fst snd] in *.
  assert (Le : List.length ends = List.length thetas).
  { unfold ends. rewrite zip4_length; shape. }
  exists x_lines, y_lines. split; [reflexivity|].
  split; [now rewrite Lx, Le|]. split; [now rewrite Ly, Le|].
  intros k xk yk theta Hxk Hyk Hth.
  assert (Hc : nth_error (0.5 * 2.5 *: np_cos thetas) k
               = Some (0.5 * 2.5 * cos theta)).
  { unfold scalar_arr, np_cos. now rewrite !nth_error_map, Hth. }
  assert (Hs : nth_error (0.5 * 2.5 *: np_sin thetas) k
               = Some (0.5 * 2.5 * sin theta)).
  { unfold scalar_arr, np_sin. now rewrite !nth_error_map, Hth. }
  apply Hn. unfold ends. apply zip4_nth_error; now apply map2_nth_error.
Qed.

(** X11.  On arrays of one length the overlay is a single red trace of three
    entries per galaxy: the two ends of a segment and a break.  The segment
    is centred on the galaxy, points along its final angle and is 2.5
    long. *)
Theorem vector_trace_segments (xs ys thetas : ndarray) :
  List.length xs = List.length thetas -> List.length ys = List.length thetas ->
  exists x_lines y_lines,
    vector_trace xs ys thetas = Returns (Scatter x_lines y_lines "red") /\
    List.length x_lines = (3 * List.length thetas)%nat /\
    List.length y_lines = (3 * List.length thetas)%nat /\
    forall k xk yk theta,
      nth_error xs k = Some xk -> nth_error ys k = Some yk ->
      nth_error thetas k = Some theta ->
      exists x_start y_start x_end y_end,
        nth_error x_lines (3 * k) = Some (Some x_start) /\
        nth_error x_lines (3 * k + 1) = Some (Some x_end) /\
        nth_error x_lines (3 * k + 2) = Some None /\
        nth_error y_lines (3 * k) = Some (Some y_start) /\
        nth_error y_lines (3 * k + 1) = Some (Some y_end) /\
        nth_error y_lines (3 * k + 2) = Some None /\
        (x_start + x_end) / 2 = xk /\ (y_start + y_end) / 2 = yk /\
        x_end - x_start = 2.5 * cos theta /\
        y_end - y_start = 2.5 * sin theta /\
        (x_end - x_start) * (x_end - x_start)
        + (y_end - y_start) * (y_end - y_start) = 2.5 * 2.5.
Proof.
  intros Hx Hy.
  destruct (vector_trace_lines xs ys thetas Hx Hy)
    as (x_lines & y_lines & Hv & Lx & Ly & Hn).
  exists x_lines, y_lines. repeat (split; [assumption|]).
  intros k xk yk theta Hxk Hyk Hth.
  destruct (Hn k xk yk theta Hxk Hyk Hth) as (H1 & H2 & H3 & H4 & H5 & H6).
  do 4 eexists. repeat apply conj; try eassumption; try lra.
  pose proof (sin2_cos2 theta) as H. unfold Rsqr in H. nra.
Qed.

Lemma vector_trace_segments_witness :
  exists x_lines y_lines,
    vector_trace [50] [50] [0] = Returns (Scatter x_lines y_lines "red") /\
    List.length x_lines = (3 * 1)%nat /\
    List.length y_lines = (3 * 1)%nat /\
    forall k xk yk theta,
      nth_error [50] k = Some xk -> nth_error [50] k = Some yk ->
      nth_error [0] k = Some theta ->
      exists x_start y_start x_end y_end,
        nth_error x_lines (3 * k) = Some (Some x_start) /\
        nth_error x_lines (3 * k + 1) = Some (Some x_end) /\
        nth_error x_lines (3 * k + 2) = Some None /\
        nth_error y_lines (3 * k) = Some (Some y_start) /\
        nth_error y_lines (3 * k + 1) = Some (Some y_end) /\
        nth_error y_lines (3 * k + 2) = Some None /\
        (x_start + x_end) / 2 = xk /\ (y_start + y_end) / 2 = yk /\
        x_end - x_start = 2.5 * cos theta /\
        y_end - y_start = 2.5 * sin theta /\
        (x_end - x_start) * (x_end - x_start)
        + (y_end - y_start) * (y_end - y_start) = 2.5 * 2.5.
Proof.
  apply (vector_trace_segments [50] [50] [0]); reflexivity.
Defined.

(** ** The vector switch *)

Lemma vector_trace_returns_red (xs ys th : ndarray) :
  List.length xs = List.length th -> List.length ys = List.length th ->
  exists x_lines y_lines,
    vector_trace xs ys th = Returns (Scatter x_lines y_lines "red").
Proof.
  intros Hx Hy. unfold vector_trace.
  rewrite !broadcast2_same by shape.
  cbn [ret bind outcome_Monad].
  destruct (line_segments _) as [x_lines y_lines].
  now exists x_lines, y_lines.
Qed.

Lemma show_vectors_in (tv : list string) :
  existsb (String.eqb "show_vectors") tv = true <-> In "show_vectors"%string tv.
Proof.
  rewrite existsb_exists. split.
  - intros (s & Hs & E). apply String.eqb_eq in E. now subst s.
  - intros H. exists "show_vectors"%string. split; [exact H|].
    apply String.eqb_refl.
Qed.

(** X12.  The figure holds one ellipse per galaxy; the checklist value
    "show_vectors", wherever it stands among the checked values, adds the
    red overlay as one last trace, and nothing else in the figure or in the
    histogram depends on the checklist. *)
Theorem vector_switch (ia sh pdeg sdeg : R) (p : string) (g : Globals) :
  population_wf g ->
  exists ellipses x_lines y_lines hist,
    List.length ellipses = List.length (theta_random g) /\
    forall tv,
      (In "show_vectors"%string tv ->
       fst (update_plot ia sh pdeg sdeg tv p g)
       = Returns (ellipses ++ [Scatter x_lines y_lines "red"], hist)) /\
      (~ In "show_vectors"%string tv ->
       fst (update_plot ia sh pdeg sdeg tv p g) = Returns (ellipses, hist)).
Proof.
  intros [Hx Hy].
  pose proof (theta_all_returns ia sh pdeg sdeg p _ _ _ Hx Hy) as Ht.
  pose proof (final_angles_length ia sh (np_deg2rad pdeg) (np_deg2rad sdeg) p
                _ _ _ Hx Hy) as Hl.
  set (thetas := map2 _ _ _) in *.
  destruct (vector_trace_returns_red (x g) (y g) thetas)
    as (x_lines & y_lines & Hv); try congruence.
  exists (map (ellipse_trace 30 ellipticity) (zip3 (x g) (y g) thetas)),
    x_lines, y_lines, [Histogram (angles_deg thetas) 30].
  split.
  - rewrite length_map, zip3_length, Hx, Hy, Hl. lia.
  - intros tv.
    unfold update_plot, read_global, lift.
    cbn [ret bind M_Monad]. rewrite Ht, make_ellipses_returns.
    split; intros Hin.
    + apply show_vectors_in in Hin. rewrite Hin.
      cbn [ret bind M_Monad]. unfold lift. now rewrite Hv.
    + destruct (existsb _ tv) eqn:E; [|reflexivity].
      apply show_vectors_in in E. contradiction.
Qed.

Lemma vector_switch_witness :
  exists ellipses x_lines y_lines hist,
    List.length ellipses = 1%nat /\
    forall tv,
      (In "show_vectors"%string tv ->
       fst (update_plot 1 1 45 90 tv "radial" one_galaxy)
       = Returns (ellipses ++ [Scatter x_lines y_lines "red"], hist)) /\
      (~ In "show_vectors"%string tv ->
       fst (update_plot 1 1 45 90 tv "radial" one_galaxy)
       = Returns (ellipses, hist)).
Proof.
  apply (vector_switch 1 1 45 90 "radial" one_galaxy).
  split; reflexivity.
Defined.

(** ** Histogram angles, continued *)

Lemma np_remainder_unique (a b r : R) (k : Z) :
  0 < b -> 0 <= r < b -> a = r + b * IZR k -> np_remainder a b = r.
Proof.
  intros Hb Hr Ha. unfold np_remainder.
  assert (Hq : a / b = r / b + IZR k) by (rewrite Ha; field; lra).
  assert (Hf : 0 <= r / b < 1).
  { split.
    - apply Rmult_le_pos; [lra|]. left. now apply Rinv_0_lt_compat.
    - apply Rmult_lt_reg_r with b; [exact Hb|].
      replace (r / b * b) with r by (field; lra). lra. }
  assert (Hk : Int_part (a / b) = k).
  { symmetry. apply Int_part_spec. rewrite Hq. lra. }
  rewrite Hk, Ha. ring.
Qed.

Lemma angles_deg_unwrapped (thetas : ndarray) :
  Forall (fun t => 0 <= t < PI) thetas ->
  angles_deg thetas = map np_degrees thetas.
Proof.
  unfold angles_deg, arr_scalar. rewrite map_map.
  induction 1 as [|t thetas Ht _ IH]; [reflexivity|].
  cbn [map]. rewrite IH. f_equal.
  pose proof PI_RGT_0 as Hpi.
  assert (Hd : 0 <= np_degrees t < 180).
  { unfold np_degrees. split.
    - apply Rmult_le_pos; [lra|]. left. apply Rdiv_lt_0_compat; lra.
    - apply Rmult_lt_reg_r with (PI / 180); [lra|].
      replace (t * (180 / PI) * (PI / 180)) with t by (field; lra). lra. }
  apply (np_remainder_unique _ _ _ 0%Z); lra.
Qed.

Lemma module_init_theta_range (u : nat -> R) :
  (forall i, 0 <= u i < 1) ->
  Forall (fun t => 0 <= t < PI) (theta_random (module_init u)).
Proof.
  intros Hu. pose proof PI_RGT_0 as Hpi.
  unfold module_init, np_random_uniform. cbn [theta_random].
  apply Forall_forall. intros v Hv.
  apply in_map_iff in Hv. destruct Hv as (i & <- & _).
  match goal with |- context [u ?k] => pose proof (Hu k) end. nra.
Qed.

(** X14.  At start-up, with both strengths at 0, the histogram shows the base
    angles of the drawn population in degrees, none of them wrapped,
    whatever the other controls say. *)
Theorem startup_histogram (u : nat -> R) (pdeg sdeg : R) (tv : list string)
  (p : string) :
  (forall i, 0 <= u i < 1) ->
  exists fig,
    fst (update_plot 0 0 pdeg sdeg tv p (module_init u))
    = Returns (fig, [Histogram (map np_degrees (theta_random (module_init u))) 30]).
Proof.
  intros Hu.
  pose proof (module_init_wf u) as Hg.
  pose proof (module_init_theta_range u Hu) as Hr.
  set (g0 := module_init u) in *. clearbody g0.
  destruct (update_plot_returns 0 0 pdeg sdeg tv p g0 Hg)
    as (fig & thetas & Ht & Hup).
  destruct Hg as [Hx Hy].
  rewrite theta_all_returns in Ht by assumption.
  rewrite final_angle_unperturbed in Ht by shape.
  assert (E : thetas = theta_random g0) by congruence. subst thetas.
  rewrite Hup. cbn [fst].
  rewrite (angles_deg_unwrapped _ Hr).
  eexists. reflexivity.
Qed.

Lemma startup_histogram_witness :
  exists fig,
    fst (update_plot 0 0 45 90 [] "uniform" (module_init (fun _ => 1 / 2)))
    = Returns (fig, [Histogram (map np_degrees
                                  (theta_random (module_init (fun _ => 1 / 2)))) 30]).
Proof.
  apply (startup_histogram (fun _ => 1 / 2) 45 90 [] "uniform").
  intros _. lra.
Defined.

(** ** The alignment functions *)

Lemma apply_intrinsic_alignment_map (theta : ndarray) (s pa : R) :
  apply_intrinsic_alignment theta s pa
  = map (fun t => (1 - s) * t + s * pa) theta.
Proof.
  unfold apply_intrinsic_alignment, arr_scalar, scalar_arr.
  now rewrite map_map.
Qed.

Lemma map2_self_map (f : R -> R -> R) (h : R -> R) (l : ndarray) :
  map2 f l (map h l) = map (fun v => f v (h v)) l.
Proof.
  induction l as [|v l IH]; simpl; [reflexivity | now rewrite IH].
Qed.

Lemma apply_lensing_shear_map (theta : ndarray) (sa ss : R) :
  apply_lensing_shear theta sa ss
  = Returns (map (fun t => t + ss * cos (t - sa)) theta).
Proof.
  unfold apply_lensing_shear.
  rewrite broadcast2_same by shape.
  unfold arr_scalar, scalar_arr, np_cos.
  now rewrite !map_map, map2_self_map.
Qed.


(** X15.  The intrinsic-alignment blend at its two ends: strength 0 leaves the
    random angles, strength 1 puts every galaxy on the preferred angle. *)
Theorem apply_intrinsic_alignment_ends (theta : ndarray) (pa : R) :
  apply_intrinsic_alignment theta 0 pa = theta /\
  apply_intrinsic_alignment theta 1 pa = np_full (List.length theta) pa.
Proof.
  rewrite !apply_intrinsic_alignment_map. unfold np_full. split.
  - rewrite <- (map_id theta) at 2. apply map_ext. intros t. ring.
  - induction theta as [|t theta IH]; [reflexivity|].
    cbn [map List.length repeat]. rewrite IH. f_equal. ring.
Qed.



(** X17.  The blend shrinks the spread of the population: the difference between
    two blended angles is [1 - strength] times the difference between the
    two angles they come from. *)
Theorem apply_intrinsic_alignment_contracts (theta : ndarray) (s pa : R)
  (i j : nat) (ti tj : R) :
  nth_error theta i = Some ti -> nth_error theta j = Some tj ->
  exists oi oj,
    nth_error (apply_intrinsic_alignment theta s pa) i = Some oi /\
    nth_error (apply_intrinsic_alignment theta s pa) j = Some oj /\
    oi - oj = (1 - s) * (ti - tj).
Proof.
  rewrite apply_intrinsic_alignment_map, !nth_error_map.
  intros -> ->. cbn [option_map].
  do 2 eexists. split; [reflexivity|]. split; [reflexivity|]. ring.
Qed.

Lemma apply_intrinsic_alignment_contracts_witness :
  exists oi oj,
    nth_error (apply_intrinsic_alignment [0; 1] 0.6 (PI / 4)) 1 = Some oi /\
    nth_error (apply_intrinsic_alignment [0; 1] 0.6 (PI / 4)) 0 = Some oj /\
    oi - oj = (1 - 0.6) * (1 - 0).
Proof.
  apply (apply_intrinsic_alignment_contracts [0; 1] 0.6 (PI / 4) 1 0 1 0);
    reflexivity.
Defined.



(** X19.  Unlike the offsets of the current callback, the shift of
    [apply_lensing_shear] is not the same for an angle and the angle half
    a turn further: it is the opposite. *)
Theorem apply_lensing_shear_half_turn (theta : ndarray) (sa ss : R) :
  exists out out',
    apply_lensing_shear theta sa ss = Returns out /\
    apply_lensing_shear (theta .+ PI) sa ss = Returns out' /\
    forall k t o o',
      nth_error theta k = Some t ->
      nth_error out k = Some o -> nth_error out' k = Some o' ->
      o' - (t + PI) = - (o - t).
Proof.
  do 2 eexists. rewrite !apply_lensing_shear_map.
  split; [reflexivity|]. split; [reflexivity|].
  intros k t o o' Ht. unfold arr_scalar.
  rewrite !nth_error_map, Ht. cbn. intros Ho Ho'.
  inversion Ho. inversion Ho'.
  replace (t + PI - sa) with (t - sa + PI) by ring.
  rewrite neg_cos. ring.
Qed.

Lemma apply_lensing_shear_half_turn_witness :
  exists out out',
    apply_lensing_shear [0; 1] (PI / 2) 0.3 = Returns out /\
    apply_lensing_shear ([0; 1] .+ PI) (PI / 2) 0.3 = Returns out' /\
    forall k t o o',
      nth_error [0; 1] k = Some t ->
      nth_error out k = Some o -> nth_error out' k = Some o' ->
      o' - (t + PI) = - (o - t).
Proof. apply (apply_lensing_shear_half_turn [0; 1] (PI / 2) 0.3). Defined.

(** ** The earlier dashboard *)

Lemma legacy_theta_all_map (ia sh pdeg sdeg : R) (th : ndarray) :
  Legacy.theta_all ia sh pdeg sdeg th
  = Returns (map (fun t =>
                    (1 - ia) * t + ia * np_deg2rad pdeg
                    + sh * cos ((1 - ia) * t + ia * np_deg2rad pdeg
                                - np_deg2rad sdeg)) th).
Proof.
  unfold Legacy.theta_all.
  rewrite apply_lensing_shear_map, apply_intrinsic_alignment_map.
  now rewrite map_map.
Qed.

(** X20.  The earlier callback returns on every population, even one whose three
    arrays differ in length, and leaves the module globals as they were:
    its final angles come from the base angles alone, one per base angle,
    and the positions only place the ellipses. *)
Theorem legacy_update_plot_returns (ia sh pdeg sdeg : R) (g : Globals) :
  exists thetas,
    Legacy.theta_all ia sh pdeg sdeg (theta_random g) = Returns thetas /\
    List.length thetas = List.length (theta_random g) /\
    Legacy.update_plot ia sh pdeg sdeg g
    = (Returns (map (ellipse_trace 30 ellipticity) (zip3 (x g) (y g) thetas),
                [Histogram (angles_deg thetas) 30]), g).
Proof.
  eexists. split; [apply legacy_theta_all_map|]. split; [apply length_map|].
  unfold Legacy.update_plot, read_global, lift.
  cbn [ret bind M_Monad].
  now rewrite legacy_theta_all_map, make_ellipses_returns.
Qed.

(** X21.  In the earlier model both strengths at 0 give back the base angles,
    and an intrinsic alignment of strength 1 gives every galaxy one and the
    same final angle, whatever its base angle. *)
Theorem legacy_theta_all_ends (sh pdeg sdeg : R) (th : ndarray) :
  Legacy.theta_all 0 0 pdeg sdeg th = Returns th /\
  Legacy.theta_all 1 sh pdeg sdeg th
  = Returns (np_full (List.length th)
               (np_deg2rad pdeg
                + sh * cos (np_deg2rad pdeg - np_deg2rad sdeg))).
Proof.
  rewrite !legacy_theta_all_map. unfold np_full. split; apply f_equal.
  - rewrite <- (map_id th) at 2. apply map_ext. intros t. ring.
  - induction th as [|t th IH]; [reflexivity|].
    cbn [map List.length repeat]. rewrite IH. f_equal.
    replace ((1 - 1) * t + 1 * np_deg2rad pdeg) with (np_deg2rad pdeg) by ring.
    reflexivity.
Qed.

(** ** The script *)

(** X22.  With the script's settings and base angles in [0, pi), the aligned
    angles lie in [3 pi / 20, 11 pi / 20), and the shear then turns every
    galaxy forward, by no more than 0.3. *)
Theorem script_angles (theta_random : ndarray) :
  Forall (fun t => 0 <= t < PI) theta_random ->
  Forall (fun a => 3 * PI / 20 <= a < 11 * PI / 20)
         (Script.theta_IA theta_random) /\
  exists out,
    Script.theta_IA_shear theta_random = Returns out /\
    Forall2 (fun a o => a < o <= a + 0.3) (Script.theta_IA theta_random) out.
Proof.
  intros Hth. pose proof PI_RGT_0 as Hpi.
  assert (Ha : Forall (fun a => 3 * PI / 20 <= a < 11 * PI / 20)
                      (Script.theta_IA theta_random)).
  { unfold Script.theta_IA, Script.IA_strength, Script.preferred_angle.
    rewrite apply_intrinsic_alignment_map.
    apply Forall_forall. intros a Hin.
    apply in_map_iff in Hin. destruct Hin as (t & <- & Ht).
    rewrite Forall_forall in Hth. specialize (Hth t Ht). split; lra. }
  split; [exact Ha|].
  unfold Script.theta_IA_shear, Script.shear_angle, Script.shear_strength.
  rewrite apply_lensing_shear_map. eexists. split; [reflexivity|].
  induction Ha as [|a l Hr _ IH]; cbn [map]; constructor; [|exact IH].
  assert (Hc : cos (a - PI / 2) = sin a).
  { replace (a - PI / 2) with (- (PI / 2 - a)) by ring.
    rewrite cos_neg. apply cos_shift. }
  rewrite Hc.
  assert (0 < sin a) by (apply sin_gt_0; lra).
  pose proof (SIN_bound a). lra.
Qed.

Lemma script_angles_witness :
  Forall (fun a => 3 * PI / 20 <= a < 11 * PI / 20) (Script.theta_IA [0; 1]) /\
  exists out,
    Script.theta_IA_shear [0; 1] = Returns out /\
    Forall2 (fun a o => a < o <= a + 0.3) (Script.theta_IA [0; 1]) out.
Proof.
  apply (script_angles [0; 1]).
  pose proof PI2_1.
  constructor; [lra|]. constructor; [lra|]. constructor.
Defined.

(** ** Positions and the figure *)

(** X23.  Under the uniform pattern, and under any pattern string other than
    "radial" and "tangential", the final angles do not depend on where the
    galaxies are: only the number of positions is read. *)
Theorem positions_unused_off_pattern (ia sh pdeg sdeg : R) (p : string)
  (xs ys xs' ys' th : ndarray) :
  p <> "radial"%string -> p <> "tangential"%string ->
  List.length xs = List.length xs' ->
  theta_all ia sh pdeg sdeg p xs ys th = theta_all ia sh pdeg sdeg p xs' ys' th.
Proof.
  intros Hr Ht Hl. unfold theta_all, shear_angles.
  apply String.eqb_neq in Hr, Ht. rewrite Hr, Ht, Hl.
  reflexivity.
Qed.

Lemma positions_unused_off_pattern_witness :
  theta_all 1 1 45 90 "uniform" [50; 10] [50; 20] [0; 1]
  = theta_all 1 1 45 90 "uniform" [3; 4] [5; 6; 7] [0; 1].
Proof.
  apply (positions_unused_off_pattern 1 1 45 90 "uniform"
           [50; 10] [50; 20] [3; 4] [5; 6; 7] [0; 1]).
  - discriminate.
  - discriminate.
  - reflexivity.
Defined.

Lemma zip3_nth_error {A B C : Type} (a : list A) (b : list B) (c : list C)
  (k : nat) (u : A) (v : B) (w : C) :
  nth_error a k = Some u -> nth_error b k = Some v -> nth_error c k = Some w ->
  nth_error (zip3 a b c) k = Some (u, v, w).
Proof.
  revert b c k; induction a as [|u' a IH]; intros [|v' b] [|w' c] [|k] Ha Hb Hc;
    simpl in *; try discriminate.
  - congruence.
  - now apply IH.
Qed.

Lemma nth_error_some {A : Type} (l : list A) (k : nat) :
  (k < List.length l)%nat -> exists a, nth_error l k = Some a.
Proof.
  intros H. destruct (nth_error l k) as [a|] eqn:E; [now exists a|].
  apply nth_error_None in E. lia.
Qed.

(** X24.  With the overlay switched on, the red segment of every galaxy runs
    along the major axis of that galaxy's ellipse: the ellipse starts at the
    point seven tenths of the way from the start to the end of the
    segment. *)
Theorem vectors_along_major_axes (ia sh pdeg sdeg : R) (tv : list string)
  (p : string) (g : Globals) :
  population_wf g -> In "show_vectors"%string tv ->
  exists ellipses x_lines y_lines hist,
    fst (update_plot ia sh pdeg sdeg tv p g)
    = Returns (ellipses ++ [Scatter x_lines y_lines "red"], hist) /\
    forall k, (k < List.length (theta_random g))%nat ->
      exists exs eys tip_x tip_y x_start y_start x_end y_end,
        nth_error ellipses k = Some (Scatter exs eys "blue") /\
        nth_error exs 0 = Some (Some tip_x) /\
        nth_error eys 0 = Some (Some tip_y) /\
        nth_error x_lines (3 * k) = Some (Some x_start) /\
        nth_error x_lines (3 * k + 1) = Some (Some x_end) /\
        nth_error y_lines (3 * k) = Some (Some y_start) /\
        nth_error y_lines (3 * k + 1) = Some (Some y_end) /\
        tip_x = x_start + 0.7 * (x_end - x_start) /\
        tip_y = y_start + 0.7 * (y_end - y_start).
Proof.
  intros [Hx Hy] Hin.
  pose proof (theta_all_returns ia sh pdeg sdeg p _ _ _ Hx Hy) as Ht.
  pose proof (final_angles_length ia sh (np_deg2rad pdeg) (np_deg2rad sdeg) p
                _ _ _ Hx Hy) as Hl.
  set (thetas := map2 _ _ _) in *.
  destruct (vector_trace_lines (x g) (y g) thetas)
    as (x_lines & y_lines & Hv & _ & _ & Hseg); try congruence.
  exists (map (ellipse_trace 30 ellipticity) (zip3 (x g) (y g) thetas)),
    x_lines, y_lines, [Histogram (angles_deg thetas) 30].
  split.
  - unfold update_plot, read_global, lift.
    cbn [ret bind M_Monad]. rewrite Ht, make_ellipses_returns.
    apply show_vectors_in in Hin. rewrite Hin.
    cbn [ret bind M_Monad]. unfold lift. now rewrite Hv.
  - intros k Hk.
    destruct (nth_error_some (x g) k) as [xk Hxk]; [lia|].
    destruct (nth_error_some (y g) k) as [yk Hyk]; [lia|].
    destruct (nth_error_some thetas k) as [theta Hth]; [lia|].
    destruct (Hseg k xk yk theta Hxk Hyk Hth) as (H1 & H2 & _ & H4 & H5 & _).
    pose proof (zip3_nth_error _ _ _ k xk yk theta Hxk Hyk Hth) as Hz.
    assert (H0 : nth_error (np_linspace 0 (2 * PI) 30) 0 = Some 0)
      by (apply np_linspace_first; lia).
    exists (map Some (map (outline_x xk theta ellipticity)
                        (np_linspace 0 (2 * PI) 30))),
      (map Some (map (outline_y yk theta ellipticity)
                   (np_linspace 0 (2 * PI) 30))),
      (outline_x xk theta ellipticity 0), (outline_y yk theta ellipticity 0),
      (xk - 0.5 * 2.5 * cos theta), (yk - 0.5 * 2.5 * sin theta),
      (xk + 0.5 * 2.5 * cos theta), (yk + 0.5 * 2.5 * sin theta).
    repeat apply conj; try assumption.
    + now rewrite nth_error_map, Hz.
    + now rewrite !nth_error_map, H0.
    + now rewrite !nth_error_map, H0.
    + unfold outline_x. rewrite cos_0, sin_0. lra.
    + unfold outline_y. rewrite cos_0, sin_0. lra.
Qed.

Lemma vectors_along_major_axes_witness :
  exists ellipses x_lines y_lines hist,
    fst (update_plot 1 1 45 90 ["show_vectors"%string] "radial" one_galaxy)
    = Returns (ellipses ++ [Scatter x_lines y_lines "red"], hist) /\
    forall k, (k < 1)%nat ->
      exists exs eys tip_x tip_y x_start y_start x_end y_end,
        nth_error ellipses k = Some (Scatter exs eys "blue") /\
        nth_error exs 0 = Some (Some tip_x) /\
        nth_error eys 0 = Some (Some tip_y) /\
        nth_error x_lines (3 * k) = Some (Some x_start) /\
        nth_error x_lines (3 * k + 1) = Some (Some x_end) /\
        nth_error y_lines (3 * k) = Some (Some y_start) /\
        nth_error y_lines (3 * k + 1) = Some (Some y_end) /\
        tip_x = x_start + 0.7 * (x_end - x_start) /\
        tip_y = y_start + 0.7 * (y_end - y_start).
Proof.
  apply (vectors_along_major_axes 1 1 45 90 ["show_vectors"%string] "radial"
           one_galaxy).
  - split; reflexivity.
  - left. reflexivity.
Defined.

(** * Binary64: rounding, overflow and NaN *)

(** ** Bounds on the constants *)

Lemma Rabs_le_bounds (a b : R) : Rabs a <= b -> - b <= a <= b.
Proof. unfold Rabs. destruct (Rcase_abs a); lra. Qed.

Lemma pow2_ge_1 (n : nat) : 1 <= 2 ^ n.
Proof. apply pow_R1_Rle. lra. Qed.

Lemma overflow_margin_big : 1024 <= IEEE.overflow_margin.
Proof.
  unfold IEEE.overflow_margin.
  change 970%nat with (10 + 960)%nat. rewrite pow_add.
  pose proof (pow2_ge_1 960) as H. set (K := 2 ^ 960) in *. clearbody K.
  replace (2 ^ 10) with 1024 by (simpl; lra). lra.
Qed.

Lemma f64_max_quarter : IEEE.f64_max / 4 = IZR (2 ^ 53 - 1) * 2 ^ 969.
Proof.
  unfold IEEE.f64_max.
  change 971%nat with (2 + 969)%nat. rewrite pow_add.
  set (K := 2 ^ 969). clearbody K.
  replace (2 ^ 2) with 4 by (simpl; lra). field.
Qed.

Lemma f64_max_half : IEEE.f64_max / 2 = IZR (2 ^ 53 - 1) * 2 ^ 970.
Proof.
  unfold IEEE.f64_max.
  change 971%nat with (1 + 970)%nat. rewrite pow_add.
  set (K := 2 ^ 970). clearbody K.
  replace (2 ^ 1) with 2 by (simpl; lra). field.
Qed.

Lemma f64_max_quarter_big : 1024 <= IEEE.f64_max / 4.
Proof.
  rewrite f64_max_quarter.
  change 969%nat with (10 + 959)%nat. rewrite pow_add.
  pose proof (pow2_ge_1 959) as H. set (K := 2 ^ 959) in *. clearbody K.
  replace (2 ^ 10) with 1024 by (simpl; lra).
  assert (1 <= IZR (2 ^ 53 - 1)) by (apply IZR_le; lia).
  nra.
Qed.

(** ** Representable values *)

Lemma representable_opp (a : R) :
  IEEE.representable a -> IEEE.representable (- a).
Proof.
  intros (m & e & Hm & H). exists (- m)%Z, e. split; [lia|].
  rewrite opp_IZR.
  destruct H as [[He ->] | [He ->]]; [left | right]; split; try assumption.
  - ring.
  - unfold Rdiv. ring.
Qed.

Lemma representable_scaled (e : nat) :
  (e <= 971)%nat -> IEEE.representable (IZR (2 ^ 53 - 1) * 2 ^ e).
Proof. intros He. exists (2 ^ 53 - 1)%Z, e. split; [lia|]. left. now split. Qed.

Lemma representable_max : IEEE.representable IEEE.f64_max.
Proof. apply representable_scaled. lia. Qed.

Lemma representable_half_max : IEEE.representable (IEEE.f64_max / 2).
Proof. rewrite f64_max_half. apply representable_scaled. lia. Qed.

Lemma representable_quarter_max : IEEE.representable (IEEE.f64_max / 4).
Proof. rewrite f64_max_quarter. apply representable_scaled. lia. Qed.

Lemma representable_int (m : Z) :
  (Z.abs m < 2 ^ 53)%Z -> IEEE.representable (IZR m).
Proof.
  intros Hm. exists m, 0%nat. split; [exact Hm|]. left. split; [lia|].
  simpl. ring.
Qed.

Lemma representable_quarter : IEEE.representable (/ 4).
Proof.
  exists 1%Z, 2%nat. split; [lia|]. right. split; [lia|]. simpl. field.
Qed.

(** ** Rounded results *)

Section Rounded.

Variable rnd : R -> R.
Variable m_sin : R -> R.
Variable m_atan2 : R -> R -> R.
Hypothesis Hrnd : IEEE.rounding rnd.
Hypothesis Hlibm : IEEE.libm_contract m_sin m_atan2.

Lemma rnd_abs_le (a b : R) :
  IEEE.representable b -> Rabs a <= b -> Rabs (rnd a) <= b.
Proof.
  intros Hb Ha. apply Rabs_le. apply Rabs_le_bounds in Ha.
  pose proof (IEEE.rnd_representable rnd Hrnd b Hb) as E.
  pose proof (IEEE.rnd_representable rnd Hrnd (- b) (representable_opp b Hb)) as E'.
  pose proof (IEEE.rnd_monotone rnd Hrnd (- b) a (proj1 Ha)).
  pose proof (IEEE.rnd_monotone rnd Hrnd a b (proj2 Ha)).
  lra.
Qed.

Lemma round_result_fin (a b : R) :
  IEEE.representable b -> b <= IEEE.f64_max -> Rabs a <= b ->
  exists v, IEEE.round_result rnd a = IEEE.Fin v /\ Rabs v <= b.
Proof.
  intros Hb Hm Ha. pose proof (rnd_abs_le a b Hb Ha) as Hv.
  exists (rnd a). split; [|exact Hv].
  unfold IEEE.round_result.
  destruct (Rle_dec (Rabs (rnd a)) IEEE.f64_max) as [_|n]; [reflexivity | lra].
Qed.

Lemma round_result_edge (a : R) :
  Rabs a < IEEE.f64_max + IEEE.overflow_margin ->
  exists v, IEEE.round_result rnd a = IEEE.Fin v /\ Rabs v <= IEEE.f64_max.
Proof.
  intros Ha. pose proof (IEEE.rnd_below_overflow rnd Hrnd a Ha) as Hv.
  exists (rnd a). split; [|exact Hv].
  unfold IEEE.round_result.
  destruct (Rle_dec (Rabs (rnd a)) IEEE.f64_max) as [_|n]; [reflexivity | lra].
Qed.

Lemma round_result_not_nan (a : R) : IEEE.round_result rnd a <> IEEE.NaN.
Proof.
  unfold IEEE.round_result.
  destruct (Rle_dec (Rabs (rnd a)) IEEE.f64_max); discriminate.
Qed.

Lemma rnd_0 : rnd 0 = 0.
Proof. apply (IEEE.rnd_representable rnd Hrnd). apply (representable_int 0). lia. Qed.

Lemma rnd_4 : rnd 4 = 4.
Proof. apply (IEEE.rnd_representable rnd Hrnd). apply (representable_int 4). lia. Qed.

Lemma pi_bounds : 0 <= IEEE.pi rnd <= 4.
Proof.
  unfold IEEE.pi. pose proof PI_RGT_0. pose proof PI_4.
  pose proof (IEEE.rnd_monotone rnd Hrnd 0 PI) as H1.
  pose proof (IEEE.rnd_monotone rnd Hrnd PI 4) as H2.
  rewrite rnd_0 in H1. rewrite rnd_4 in H2. lra.
Qed.

Lemma deg2rad_factor_bounds : 0 <= IEEE.deg2rad_factor rnd <= / 4.
Proof.
  unfold IEEE.deg2rad_factor. pose proof pi_bounds as Hp.
  pose proof (IEEE.rnd_monotone rnd Hrnd 0 (IEEE.pi rnd / 180)) as H1.
  pose proof (IEEE.rnd_monotone rnd Hrnd (IEEE.pi rnd / 180) (/ 4)) as H2.
  rewrite rnd_0 in H1.
  rewrite (IEEE.rnd_representable rnd Hrnd (/ 4) representable_quarter) in H2.
  lra.
Qed.

Lemma half_pi_bounds : 0 <= IEEE.half_pi rnd <= 4.
Proof.
  unfold IEEE.half_pi. pose proof pi_bounds as Hp.
  pose proof (IEEE.rnd_monotone rnd Hrnd 0 (IEEE.pi rnd / 2)) as H1.
  pose proof (IEEE.rnd_monotone rnd Hrnd (IEEE.pi rnd / 2) 4) as H2.
  rewrite rnd_0 in H1. rewrite rnd_4 in H2. lra.
Qed.

Lemma np_deg2rad_fin (d : R) :
  Rabs d <= IEEE.f64_max ->
  exists p, IEEE.np_deg2rad rnd (IEEE.Fin d) = IEEE.Fin p /\
            Rabs p <= IEEE.f64_max / 4.
Proof.
  intros Hd. unfold IEEE.np_deg2rad, IEEE.mul.
  pose proof f64_max_quarter_big as Hq.
  apply round_result_fin; [apply representable_quarter_max | lra |].
  pose proof deg2rad_factor_bounds as Hc.
  rewrite Rabs_mult, (Rabs_pos_eq (IEEE.deg2rad_factor rnd)) by lra.
  pose proof (Rabs_pos d). nra.
Qed.

Lemma centred_fin (v : R) :
  0 <= v <= 100 ->
  exists c, IEEE.sub rnd (IEEE.Fin v) (IEEE.Fin 0.5) = IEEE.Fin c.
Proof.
  intros Hv. pose proof f64_max_quarter_big as Hq.
  destruct (round_result_fin (v - 0.5) IEEE.f64_max representable_max)
    as (c & Hc & _); [lra | apply Rabs_le; lra |].
  exists c. exact Hc.
Qed.

Lemma shear_direction_fin (p : string) (sau xi yi : R) :
  Rabs sau <= IEEE.f64_max / 4 -> 0 <= xi <= 100 -> 0 <= yi <= 100 ->
  exists d,
    IEEE.shear_direction rnd m_atan2 p (IEEE.Fin sau) (IEEE.Fin xi) (IEEE.Fin yi)
    = IEEE.Fin d /\ Rabs d <= IEEE.f64_max / 4.
Proof.
  intros Hs Hx Hy. pose proof f64_max_quarter_big as Hq.
  unfold IEEE.shear_direction.
  destruct (centred_fin xi Hx) as (xc & ->).
  destruct (centred_fin yi Hy) as (yc & ->).
  pose proof (IEEE.m_atan2_bound m_sin m_atan2 Hlibm yc xc) as Ha.
  destruct (p =? "uniform")%string; [now exists sau|].
  destruct (p =? "radial")%string; [|destruct (p =? "tangential")%string].
  - cbn [IEEE.arctan2 IEEE.add].
    apply round_result_fin; [apply representable_quarter_max | lra |].
    pose proof half_pi_bounds as Hh. apply Rabs_le. apply Rabs_le_bounds in Ha. lra.
  - cbn [IEEE.arctan2]. eexists. split; [reflexivity | lra].
  - exists 0. split; [reflexivity|]. rewrite Rabs_R0. lra.
Qed.

Lemma sine_factor_fin (d theta0 : R) :
  Rabs d <= IEEE.f64_max / 4 -> 0 <= theta0 <= 4 ->
  exists s,
    IEEE.sin m_sin (IEEE.mul rnd (IEEE.Fin 2)
                      (IEEE.sub rnd (IEEE.Fin d) (IEEE.Fin theta0)))
    = IEEE.Fin s /\ Rabs s <= 1.
Proof.
  intros Hd Ht. pose proof f64_max_quarter_big as Hq.
  destruct (round_result_fin (d + - theta0) (IEEE.f64_max / 2)
              representable_half_max) as (q & Eq & Hq2).
  { lra. }
  { apply Rabs_le. apply Rabs_le_bounds in Hd. lra. }
  unfold IEEE.sub, IEEE.opp, IEEE.add. rewrite Eq. cbn [IEEE.mul].
  destruct (round_result_fin (2 * q) IEEE.f64_max representable_max)
    as (w & Ew & _).
  { lra. }
  { rewrite Rabs_mult, (Rabs_pos_eq 2) by lra. lra. }
  rewrite Ew. cbn [IEEE.sin]. eexists. split; [reflexivity|].
  apply (IEEE.m_sin_bound m_sin m_atan2 Hlibm).
Qed.

Lemma offset_fin (k s b : R) :
  IEEE.representable b -> b <= IEEE.f64_max -> Rabs k <= b -> Rabs s <= 1 ->
  exists a, IEEE.mul rnd (IEEE.Fin k) (IEEE.Fin s) = IEEE.Fin a /\ Rabs a <= b.
Proof.
  intros Hb Hm Hk Hs. cbn [IEEE.mul].
  apply round_result_fin; try assumption.
  rewrite Rabs_mult. pose proof (Rabs_pos k). pose proof (Rabs_pos s). nra.
Qed.

Lemma final_angle_not_nan (ia sh pa d theta0 : R) :
  Rabs ia <= IEEE.f64_max -> Rabs sh <= IEEE.f64_max ->
  Rabs pa <= IEEE.f64_max / 4 -> Rabs d <= IEEE.f64_max / 4 ->
  0 <= theta0 <= 4 ->
  IEEE.final_angle rnd m_sin (IEEE.Fin ia) (IEEE.Fin sh) (IEEE.Fin pa)
    (IEEE.Fin d) (IEEE.Fin theta0) <> IEEE.NaN /\
  (Rabs ia <= IEEE.f64_max / 4 -> Rabs sh <= IEEE.f64_max / 4 ->
   exists v,
     IEEE.final_angle rnd m_sin (IEEE.Fin ia) (IEEE.Fin sh) (IEEE.Fin pa)
       (IEEE.Fin d) (IEEE.Fin theta0) = IEEE.Fin v /\
     Rabs v <= IEEE.f64_max).
Proof.
  intros Hia Hsh Hpa Hd Ht.
  pose proof f64_max_quarter_big as Hq. pose proof overflow_margin_big as Hg.
  unfold IEEE.final_angle.
  destruct (sine_factor_fin pa theta0 Hpa Ht) as (s1 & -> & Hs1).
  destruct (sine_factor_fin d theta0 Hd Ht) as (s2 & -> & Hs2).
  split.
  - destruct (offset_fin ia s1 IEEE.f64_max representable_max (Rle_refl _) Hia Hs1)
      as (a1 & -> & Ha1).
    destruct (offset_fin sh s2 IEEE.f64_max representable_max (Rle_refl _) Hsh Hs2)
      as (a2 & -> & Ha2).
    cbn [IEEE.add].
    destruct (round_result_edge (theta0 + a1)) as (t & -> & _).
    { apply Rabs_le_bounds in Ha1.
      apply Rle_lt_trans with (IEEE.f64_max + 4); [apply Rabs_le|]; lra. }
    apply round_result_not_nan.
  - intros Hia4 Hsh4.
    assert (Hle : IEEE.f64_max / 4 <= IEEE.f64_max) by lra.
    destruct (offset_fin ia s1 _ representable_quarter_max Hle Hia4 Hs1)
      as (a1 & -> & Ha1).
    destruct (offset_fin sh s2 _ representable_quarter_max Hle Hsh4 Hs2)
      as (a2 & -> & Ha2).
    cbn [IEEE.add].
    destruct (round_result_fin (theta0 + a1) (IEEE.f64_max / 2)
                representable_half_max) as (t & -> & Ht2).
    { lra. }
    { apply Rabs_le. apply Rabs_le_bounds in Ha1. lra. }
    apply round_result_fin; [apply representable_max | lra |].
    apply Rabs_le. apply Rabs_le_bounds in Ht2. apply Rabs_le_bounds in Ha2. lra.
Qed.

End Rounded.

(** ** An instance of the contracts *)

Lemma f64_max_pos : 0 < IEEE.f64_max.
Proof. pose proof f64_max_quarter_big. lra. Qed.

Lemma representable_bounded (a : R) :
  IEEE.representable a -> - IEEE.f64_max <= a <= IEEE.f64_max.
Proof.
  intros (m & e & Hm & H).
  assert (Hm1 : - IZR (2 ^ 53 - 1) <= IZR m <= IZR (2 ^ 53 - 1)).
  { split; [rewrite <- opp_IZR|]; apply IZR_le; lia. }
  assert (Hb : 1 <= IZR (2 ^ 53 - 1)) by (apply IZR_le; lia).
  pose proof (pow2_ge_1 e) as He1.
  unfold IEEE.f64_max.
  set (B := IZR (2 ^ 53 - 1)) in *. clearbody B.
  destruct H as [[He ->] | [He ->]].
  - assert (Hp : 2 ^ e <= 2 ^ 971) by (apply Rle_pow; [lra | exact He]).
    set (P := 2 ^ e) in *. set (Q := 2 ^ 971) in *. clearbody P Q.
    split; nra.
  - pose proof (pow2_ge_1 971) as Hq.
    set (P := 2 ^ e) in *. set (Q := 2 ^ 971) in *. clearbody P Q.
    assert (Hi : 0 < / P <= 1).
    { split; [apply Rinv_0_lt_compat; lra|].
      rewrite <- Rinv_1. apply Rinv_le_contravar; lra. }
    unfold Rdiv. set (I := / P) in *. clearbody I.
    split; nra.
Qed.

Lemma rnd_exact_rounding : IEEE.rounding IEEE.rnd_exact.
Proof.
  pose proof f64_max_pos as Hm. pose proof overflow_margin_big as Hg.
  constructor.
  - intros a b Hab. unfold IEEE.rnd_exact.
    repeat match goal with
           | |- context [Rlt_dec ?u ?v] => destruct (Rlt_dec u v)
           end; lra.
  - intros a Ha. apply representable_bounded in Ha. unfold IEEE.rnd_exact.
    destruct (Rlt_dec IEEE.f64_max a); [lra|].
    destruct (Rlt_dec a (- IEEE.f64_max)); [lra | reflexivity].
  - intros a Ha. apply Rabs_le.
    assert (- (IEEE.f64_max + IEEE.overflow_margin) < a
            < IEEE.f64_max + IEEE.overflow_margin).
    { unfold Rabs in Ha. destruct (Rcase_abs a); lra. }
    unfold IEEE.rnd_exact.
    repeat match goal with
           | |- context [Rlt_dec ?u ?v] => destruct (Rlt_dec u v)
           end; lra.
  - intros a Ha.
    assert (E : IEEE.rnd_exact a = a).
    { unfold IEEE.rnd_exact. unfold Rabs in Ha.
      destruct (Rcase_abs a);
        repeat match goal with
               | |- context [Rlt_dec ?u ?v] => destruct (Rlt_dec u v)
               end; lra. }
    rewrite E. lra.
Qed.

Lemma exact_libm_contract : IEEE.libm_contract Rtrigo_def.sin arctan2.
Proof.
  constructor.
  - intros a. apply Rabs_le. pose proof (SIN_bound a). lra.
  - intros a b. apply Rabs_le.
    pose proof (arctan2_range a b). pose proof PI_4. lra.
Qed.

(** ** The final angle on float64 *)

(** C8, amended.  For all finite float64 arguments of the callback, every
    pattern string and every galaxy with a position in the field and a
    base angle in [0, 4] (which covers [0, pi)), the galaxy at the pattern
    centre included, the final angle is never NaN; it is a finite double
    whenever both strengths are at most a quarter of the largest double in
    magnitude; and on a population as the module builds it the model
    returns one final angle per galaxy and raises nothing. *)
Theorem orientation_model_never_nan (rnd m_sin : R -> R) (m_atan2 : R -> R -> R)
  (ia sh pdeg sdeg : R) (p : string) (xi yi theta0 : R) :
  IEEE.rounding rnd -> IEEE.libm_contract m_sin m_atan2 ->
  Rabs ia <= IEEE.f64_max -> Rabs sh <= IEEE.f64_max ->
  Rabs pdeg <= IEEE.f64_max -> Rabs sdeg <= IEEE.f64_max ->
  0 <= xi <= 100 -> 0 <= yi <= 100 -> 0 <= theta0 <= 4 ->
  IEEE.theta_entry rnd m_sin m_atan2 (IEEE.Fin ia) (IEEE.Fin sh)
    (IEEE.Fin pdeg) (IEEE.Fin sdeg) p (IEEE.Fin xi) (IEEE.Fin yi)
    (IEEE.Fin theta0) <> IEEE.NaN /\
  (Rabs ia <= IEEE.f64_max / 4 -> Rabs sh <= IEEE.f64_max / 4 ->
   exists v,
     IEEE.theta_entry rnd m_sin m_atan2 (IEEE.Fin ia) (IEEE.Fin sh)
       (IEEE.Fin pdeg) (IEEE.Fin sdeg) p (IEEE.Fin xi) (IEEE.Fin yi)
       (IEEE.Fin theta0) = IEEE.Fin v /\ Rabs v <= IEEE.f64_max) /\
  (forall g, population_wf g ->
   exists thetas,
     theta_all ia sh pdeg sdeg p (x g) (y g) (theta_random g) = Returns thetas /\
     List.length thetas = List.length (theta_random g)).
Proof.
  intros Hrnd Hlibm Hia Hsh Hp Hs Hx Hy Ht.
  unfold IEEE.theta_entry.
  destruct (np_deg2rad_fin rnd Hrnd pdeg Hp) as (pa & -> & Hpa).
  destruct (np_deg2rad_fin rnd Hrnd sdeg Hs) as (sau & -> & Hsau).
  destruct (shear_direction_fin rnd m_sin m_atan2 Hrnd Hlibm p sau xi yi Hsau Hx Hy)
    as (d & -> & Hd).
  destruct (final_angle_not_nan rnd m_sin m_atan2 Hrnd Hlibm ia sh pa d theta0
              Hia Hsh Hpa Hd Ht) as [Hnan Hfin].
  split; [exact Hnan|]. split; [exact Hfin|].
  intros g [Hgx Hgy]. eexists. split; [now apply theta_all_returns|].
  now apply final_angles_length.
Qed.

Lemma orientation_model_never_nan_witness :
  IEEE.theta_entry IEEE.rnd_exact Rtrigo_def.sin arctan2 (IEEE.Fin 2)
    (IEEE.Fin (- 3)) (IEEE.Fin 45) (IEEE.Fin 90) "radial" (IEEE.Fin 0.5)
    (IEEE.Fin 0.5) (IEEE.Fin 1) <> IEEE.NaN /\
  (Rabs 2 <= IEEE.f64_max / 4 -> Rabs (- 3) <= IEEE.f64_max / 4 ->
   exists v,
     IEEE.theta_entry IEEE.rnd_exact Rtrigo_def.sin arctan2 (IEEE.Fin 2)
       (IEEE.Fin (- 3)) (IEEE.Fin 45) (IEEE.Fin 90) "radial" (IEEE.Fin 0.5)
       (IEEE.Fin 0.5) (IEEE.Fin 1) = IEEE.Fin v /\ Rabs v <= IEEE.f64_max) /\
  (forall g, population_wf g ->
   exists thetas,
     theta_all 2 (- 3) 45 90 "radial" (x g) (y g) (theta_random g)
     = Returns thetas /\
     List.length thetas = List.length (theta_random g)).
Proof.
  pose proof f64_max_quarter_big as Hq.
  apply (orientation_model_never_nan IEEE.rnd_exact Rtrigo_def.sin arctan2
           2 (- 3) 45 90 "radial" 0.5 0.5 1 rnd_exact_rounding
           exact_libm_contract);
    try (apply Rabs_le; lra); lra.
Defined.

(** C8, the claim as stated fails.  The fifth galaxy of the seeded
    population has base angle 1.0054654753821142; with both strengths at
    1e308, the preferred angle and the uniform shear angle at
    102.60892818551011 degrees, both sines are taken at [np.pi / 2] and
    equal 1, and the sum of the two offsets overflows: the final angle is
    infinity, not a real number. *)
Lemma final_angle_overflows :
  B64.final_angle B64.libm_samples
    0x1.1ccf385ebc8ap+1023 0x1.1ccf385ebc8ap+1023
    (B64.np_deg2rad 0x1.9a6f8adec983ap+6) (B64.np_deg2rad 0x1.9a6f8adec983ap+6)
    B64.theta_4
  = infinity /\
  (2 * (B64.np_deg2rad 0x1.9a6f8adec983ap+6 - B64.theta_4))%float
  = 0x1.921fb54442d18p+0%float /\
  is_finite (B64.final_angle B64.libm_samples
               0x1.1ccf385ebc8ap+1023 0x1.1ccf385ebc8ap+1023
               (B64.np_deg2rad 0x1.9a6f8adec983ap+6)
               (B64.np_deg2rad 0x1.9a6f8adec983ap+6) B64.theta_4) = false.
Proof. repeat split; vm_compute; reflexivity. Qed.
